(** * Post-processing of TyDi answers: merge-join, span scoring, reduction

    A shallow embedding of [src/tydi_canine/postproc.py] and the properties
    the specification states about it.

    Conventions of the embedding:
    - Python integers are [Z]; list positions are [nat].
    - Logits are floating-point numbers in the source.  Only three
      operations are ever applied to them ([+], [-] and the comparison
      [<]), so the development is stated over an arbitrary carrier with
      these operations (class [Score]); concrete scenarios use [Z].
    - Exceptions are the [Raise] outcome of [result]; [logging.warning]
      calls are collected in a log, so a computation is a pair of a log and
      an outcome (the monad [M]).  [logger.info] calls are not recorded.
    - A dict that is only looked up is a [gmap]; a dict that is iterated
      ([results], [candidates_dict]) is an insertion-ordered association
      list.
    - What [np.array(..., dtype="int32")] does with an integer outside
      the 32-bit range depends on the NumPy that is installed; the
      development is stated for every NumPy (class [NumPy]). *)

From stdpp Require Import base option list sorting gmap strings.
From Stdlib Require Import ZArith Lia.

Local Open Scope Z_scope.

(** ** Scores *)

Class Score (T : Type) := {
  score_add : T → T → T;
  score_sub : T → T → T;
  score_ltb : T → T → bool
}.

#[global] Instance Z_score : Score Z :=
  {| score_add := Z.add; score_sub := Z.sub; score_ltb := Z.ltb |}.

(** The order of a score type without incomparable values (floats without
    NaN, integers): [<] is asymmetric and "not below" is transitive. *)
Definition weak_order (T : Type) `{Score T} : Prop :=
  (∀ a b : T, score_ltb a b = true → score_ltb b a = false)
  ∧ (∀ a b c : T, score_ltb a b = false → score_ltb b c = false →
                  score_ltb a c = false).

(** ** Exceptions, warnings and the logging monad *)

Inductive exn :=
| IndexError
| KeyError (key : string)
| ValueError (msg : string)
| OverflowError.

Inductive result (A : Type) :=
| Ok (a : A)
| Raise (e : exn).
Arguments Ok {A} a.
Arguments Raise {A} e.

Inductive warning :=
| WarnCountMismatch (nfeatures nresults : nat) (example_id : Z)
| WarnNoFeature (unique_id : Z)
| WarnNoPredictions (example_id : Z)
| WarnNoPassage (example_id : Z)
| WarnNoExample
| WarnFailedMatches (n : nat).

Definition M (A : Type) : Type := (list warning * result A)%type.

Definition ret {A} (a : A) : M A := ([], Ok a).
Definition raise {A} (e : exn) : M A := ([], Raise e).
Definition warn (w : warning) : M unit := ([w], Ok tt).
Definition bind {A B} (m : M A) (k : A → M B) : M B :=
  match m with
  | (w, Ok a) => (w ++ fst (k a), snd (k a))
  | (w, Raise e) => (w, Raise e)
  end.

Notation "x <- m ;; k" := (bind m (λ x, k))
  (at level 100, m at next level, right associativity).
Notation "m ;;; k" := (bind m (λ _, k))
  (at level 100, right associativity).

(** ** Python built-ins used by the module *)

(** [l[i]] for a position [i ≥ 0]. *)
Definition py_index {A} (l : list A) (i : nat) : M A :=
  match l !! i with
  | Some x => ret x
  | None => raise IndexError
  end.

(** [enumerate(l, start)]. *)
Fixpoint enumerate {A} (start : nat) (l : list A) : list (nat * A) :=
  match l with
  | [] => []
  | x :: l' => (start, x) :: enumerate (S start) l'
  end.

(** [sorted] is stable.  [stays_before y x] tells that [y], which comes
    later in the input than [x], must nevertheless precede [x]. *)
Fixpoint insert_sorted {A} (stays_before : A → A → bool) (x : A) (l : list A)
  : list A :=
  match l with
  | [] => [x]
  | y :: l' =>
      if stays_before y x then y :: insert_sorted stays_before x l'
      else x :: y :: l'
  end.

Definition py_sorted {A} (stays_before : A → A → bool) (l : list A) : list A :=
  foldr (insert_sorted stays_before) [] l.

(** The integers of the 32-bit range, and the 32-bit two's complement
    value of an integer (itself, when it is in the range). *)
Definition in_int32 (z : Z) : Prop := - 2 ^ 31 ≤ z < 2 ^ 31.

#[global] Instance in_int32_dec (z : Z) : Decision (in_int32 z).
Proof. unfold in_int32. apply _. Defined.

Definition int32 (z : Z) : Z := (z + 2 ^ 31) `mod` 2 ^ 32 - 2 ^ 31.

(** [np.array(ids, dtype="int32")] for a list of Python integers.  An
    integer of the 32-bit range is stored as it is.  For an integer
    outside the range the outcome depends on the NumPy that is installed:
    NumPy 1.x stores its 32-bit two's complement value when the integer
    fits a C long and raises [OverflowError] otherwise, NumPy 2 raises
    [OverflowError] always.  [wraps z] tells whether the installed NumPy
    wraps the out-of-range integer [z]. *)
Class NumPy := wraps : Z → bool.

Definition np_int32 `{NumPy} (z : Z) : result Z :=
  if decide (in_int32 z) then Ok z
  else if wraps z then Ok (int32 z)
  else Raise OverflowError.

Fixpoint np_array_int32 `{NumPy} (ids : list Z) : M (list Z) :=
  match ids with
  | [] => ret []
  | z :: rest =>
      match np_int32 z with
      | Ok v => vs <- np_array_int32 rest ;; ret (v :: vs)
      | Raise e => raise e
      end
  end.

(** NumPy 2, and NumPy 1.x where a C long has 64 bits. *)
Definition numpy_2 : NumPy := λ _, false.
Definition numpy_1 : NumPy := λ z, bool_decide (- 2 ^ 63 ≤ z < 2 ^ 63).

(** ** Data model *)

Record Candidate := {
  plaintext_start_byte : Z;
  plaintext_end_byte : Z
}.

Record Feature := {
  unique_ids : Z;
  example_index : Z;
  wp_start_offset : list Z;
  wp_end_offset : list Z;
  language_id : list Z
}.

Record Span := {
  start_byte_offset : Z;
  end_byte_offset : Z
}.

Section Postproc.

Context {T : Type} `{Score T} `{NumPy}.

(** [data.Language(language_id).name.lower()]: the enumeration lives in
    [tydi_canine/data.py]; it is a parameter here.  [None] stands for the
    [ValueError] an unknown id raises. *)
Variable language_name_of : Z → option string.

Record RawResult := {
  unique_id : Z;
  start_logits : list T;
  end_logits : list T;
  answer_type_logits : list T
}.

Record PredictedLabel := {
  label_example_id : Z;
  language : string;
  passage_answer_index : nat;
  passage_answer_score : T;
  minimal_answer : Span;
  minimal_answer_score : T;
  yes_no_answer : string
}.

Record ScoreSummary := {
  predicted_label : option PredictedLabel;
  minimal_span_score : option T;
  cls_token_score : option T;
  summary_answer_type_logits : option (list T)
}.

(** One entry of the [predictions] list.  The source tuple is
    [(score, summary, language_name, start_offset, end_offset)]; the two
    token positions that produced the entry are kept beside it so that
    statements about the winning token pair can be written.  Nothing in
    the computation reads them. *)
Record Prediction := {
  p_score : T;
  p_summary : ScoreSummary;
  p_language : string;
  p_start_offset : Z;
  p_end_offset : Z;
  p_start_index : nat;
  p_end_index : nat
}.

Record EvalExample := {
  example_id : Z;
  candidates : list Candidate;
  results : list (Z * RawResult);
  features : gmap Z Feature
}.

(** ** [get_best_indexes] *)

Fixpoint best_loop (i : nat) (n_best_size : Z) (index_and_score : list (nat * T))
  : list nat :=
  match index_and_score with
  | [] => []
  | x :: rest =>
      if Z.of_nat i >=? n_best_size then []
      else x.1 :: best_loop (S i) n_best_size rest
  end.

Definition by_score_desc (y x : nat * T) : bool := score_ltb x.2 y.2.

Definition get_best_indexes (logits : list T) (n_best_size : Z) : list nat :=
  let index_and_score := py_sorted by_score_desc (enumerate 1 (tail logits)) in
  best_loop 0 n_best_size index_and_score.

(** ** [compute_predictions] *)

Definition new_summary (span_score cls_score : T) (result : RawResult)
  : ScoreSummary :=
  {| predicted_label := None;
     minimal_span_score := Some span_score;
     cls_token_score := Some cls_score;
     summary_answer_type_logits := Some (answer_type_logits result) |}.

(** [for end_index in end_indexes: ...] for one [start_index]. *)
Fixpoint end_loop (result : RawResult) (feature : Feature)
    (language_name : string) (cls_score : T) (max_answer_length : Z)
    (start_index : nat) (end_indexes : list nat)
    (predictions : list Prediction) : M (list Prediction) :=
  match end_indexes with
  | [] => ret predictions
  | end_index :: rest =>
      let continue :=
        end_loop result feature language_name cls_score max_answer_length
                 start_index rest in
      if (end_index <? start_index)%nat then continue predictions else
      so <- py_index (wp_start_offset feature) start_index ;;
      if so =? -1 then continue predictions else
      eo <- py_index (wp_end_offset feature) end_index ;;
      if eo =? -1 then continue predictions else
      let length := Z.of_nat end_index - Z.of_nat start_index + 1 in
      if length >? max_answer_length then continue predictions else
      sl <- py_index (start_logits result) start_index ;;
      el <- py_index (end_logits result) end_index ;;
      let summary := new_summary (score_add sl el) cls_score result in
      let start_offset := so in
      let end_offset := eo + 1 in
      let score := score_sub (score_add sl el) cls_score in
      continue (predictions ++
                [ {| p_score := score; p_summary := summary;
                     p_language := language_name;
                     p_start_offset := start_offset;
                     p_end_offset := end_offset;
                     p_start_index := start_index;
                     p_end_index := end_index |} ])
  end.

(** [for start_index in start_indexes: ...]. *)
Fixpoint start_loop (result : RawResult) (feature : Feature)
    (language_name : string) (cls_score : T) (max_answer_length : Z)
    (start_indexes end_indexes : list nat)
    (predictions : list Prediction) : M (list Prediction) :=
  match start_indexes with
  | [] => ret predictions
  | start_index :: rest =>
      predictions' <- end_loop result feature language_name cls_score
                        max_answer_length start_index end_indexes predictions ;;
      start_loop result feature language_name cls_score max_answer_length
                 rest end_indexes predictions'
  end.

Definition lookup_language (language_id : Z) : M string :=
  match language_name_of language_id with
  | Some name => ret name
  | None => raise (ValueError "not a valid Language")
  end.

(** [for unique_id, result in eval_example.results.items(): ...].  The
    outcome [None] is the early [return None] inside the loop. *)
Fixpoint results_loop (eval_example : EvalExample)
    (n_best_size max_answer_length : Z) (items : list (Z * RawResult))
    (predictions : list Prediction) : M (option (list Prediction)) :=
  match items with
  | [] => ret (Some predictions)
  | (unique_id, result) :: rest =>
      match features eval_example !! unique_id with
      | None => warn (WarnNoFeature unique_id) ;;; ret None
      | Some feature =>
          lang_id <- py_index (language_id feature) 0 ;;
          language_name <- lookup_language lang_id ;;
          let start_indexes :=
            get_best_indexes (start_logits result) n_best_size in
          let end_indexes :=
            get_best_indexes (end_logits result) n_best_size in
          s0 <- py_index (start_logits result) 0 ;;
          e0 <- py_index (end_logits result) 0 ;;
          let cls_score := score_add s0 e0 in
          predictions' <- start_loop result feature language_name cls_score
                            max_answer_length start_indexes end_indexes
                            predictions ;;
          results_loop eval_example n_best_size max_answer_length rest
                       predictions'
      end
  end.

(** [max(predictions, key=lambda x: x[0])]: the first maximum wins. *)
Fixpoint max_loop (best : Prediction) (l : list Prediction) : Prediction :=
  match l with
  | [] => best
  | p :: l' =>
      if score_ltb (p_score best) (p_score p) then max_loop p l'
      else max_loop best l'
  end.

Definition py_max (l : list Prediction) : option Prediction :=
  match l with
  | [] => None
  | p :: l' => Some (max_loop p l')
  end.

Definition contains_span (c : Candidate) (start end_ : Z) : bool :=
  (plaintext_start_byte c <=? start) && (plaintext_end_byte c >=? end_).

(** [for c_ind, c in enumerate(candidates): ... break]; [None] is the
    [else] branch of the loop (no [break] happened). *)
Fixpoint passage_loop (c_ind : nat) (cands : list Candidate) (start end_ : Z)
  : option nat :=
  match cands with
  | [] => None
  | c :: rest =>
      if contains_span c start end_ then Some c_ind
      else passage_loop (S c_ind) rest start end_
  end.

Definition resolve_passage (eval_example : EvalExample) (minimal_span : Span)
  : M nat :=
  match passage_loop 0 (candidates eval_example)
          (start_byte_offset minimal_span) (end_byte_offset minimal_span) with
  | Some c_ind => ret c_ind
  | None => warn (WarnNoPassage (example_id eval_example)) ;;; ret 0%nat
  end.

(** The first half of [compute_predictions]: the early exits and the loop
    that fills [predictions].  [None] is [return None]. *)
Definition collect_predictions (eval_example : EvalExample)
    (candidate_beam max_answer_length : Z) : M (option (list Prediction)) :=
  let n_best_size := candidate_beam in
  match results eval_example with
  | [] => ret None
  | _ :: _ =>
      if decide (size (features eval_example)
                 ≠ length (results eval_example)) then
        warn (WarnCountMismatch (size (features eval_example))
                (length (results eval_example)) (example_id eval_example)) ;;;
        ret None
      else
        results_loop eval_example n_best_size max_answer_length
                     (results eval_example) []
  end.

Definition label_of (eval_example : EvalExample) (best : Prediction)
    (passage_span_index : nat) : PredictedLabel :=
  {| label_example_id := example_id eval_example;
     language := p_language best;
     passage_answer_index := passage_span_index;
     passage_answer_score := p_score best;
     minimal_answer := {| start_byte_offset := p_start_offset best;
                          end_byte_offset := p_end_offset best |};
     minimal_answer_score := p_score best;
     yes_no_answer := "NONE" |}.

Definition with_label (summary : ScoreSummary) (l : PredictedLabel)
  : ScoreSummary :=
  {| predicted_label := Some l;
     minimal_span_score := minimal_span_score summary;
     cls_token_score := cls_token_score summary;
     summary_answer_type_logits := summary_answer_type_logits summary |}.

Definition compute_predictions (eval_example : EvalExample)
    (candidate_beam max_answer_length : Z) : M (option ScoreSummary) :=
  collected <- collect_predictions eval_example candidate_beam
                 max_answer_length ;;
  match collected with
  | None => ret None
  | Some predictions =>
      match py_max predictions with
      | None =>
          warn (WarnNoPredictions (example_id eval_example)) ;;; ret None
      | Some best =>
          let minimal_span :=
            {| start_byte_offset := p_start_offset best;
               end_byte_offset := p_end_offset best |} in
          passage_span_index <- resolve_passage eval_example minimal_span ;;
          ret (Some (with_label (p_summary best)
                       (label_of eval_example best passage_span_index)))
      end
  end.

Definition construct_prediction_object (eval_example : EvalExample)
    (candidate_beam max_answer_length : Z)
  : M (option (Z * option PredictedLabel)) :=
  summary <- compute_predictions eval_example candidate_beam
               max_answer_length ;;
  match summary with
  | Some s => ret (Some (example_id eval_example, predicted_label s))
  | None => ret None
  end.

(** ** [compute_pred_dict]: the merge-join *)

(** The payload of a merged pair: a [(key, candidates)] tuple of
    [candidates_dict.items()], a feature dict (it has the key
    ["wp_start_offset"]) or a raw result. *)
Inductive Datum :=
| DExample (item : Z * list Candidate)
| DFeature (f : Feature)
| DResult (r : RawResult).

Record JoinState := {
  eval_examples : list EvalExample;
  num_failed_matches : nat;
  ex_count : nat;
  feature_count : nat;
  result_count : nat
}.

Definition join_start : JoinState :=
  {| eval_examples := []; num_failed_matches := 0; ex_count := 0;
     feature_count := 0; result_count := 0 |}.

Definition new_example (k : Z) (cands : list Candidate) : EvalExample :=
  {| example_id := k; candidates := cands; results := []; features := ∅ |}.

(** [d[k] = v] on an insertion-ordered dict. *)
Fixpoint dict_set {V} (d : list (Z * V)) (k : Z) (v : V) : list (Z * V) :=
  match d with
  | [] => [(k, v)]
  | (k', v') :: d' =>
      if decide (k' = k) then (k', v) :: d' else (k', v') :: dict_set d' k v
  end.

Definition set_feature (uid : Z) (f : Feature) (e : EvalExample)
  : EvalExample :=
  {| example_id := example_id e; candidates := candidates e;
     results := results e; features := <[uid := f]> (features e) |}.

Definition set_result (uid : Z) (r : RawResult) (e : EvalExample)
  : EvalExample :=
  {| example_id := example_id e; candidates := candidates e;
     results := dict_set (results e) uid r; features := features e |}.

(** In-place update of [eval_examples[-1]]. *)
Definition update_last {A} (g : A → A) (l : list A) : list A :=
  alter g (pred (length l)) l.

Definition with_examples (st : JoinState) (l : list EvalExample) : JoinState :=
  {| eval_examples := l; num_failed_matches := num_failed_matches st;
     ex_count := ex_count st; feature_count := feature_count st;
     result_count := result_count st |}.

Definition failed_match (st : JoinState) : JoinState :=
  {| eval_examples := eval_examples st;
     num_failed_matches := S (num_failed_matches st);
     ex_count := ex_count st; feature_count := feature_count st;
     result_count := result_count st |}.

Definition count_example (st : JoinState) : JoinState :=
  {| eval_examples := eval_examples st;
     num_failed_matches := num_failed_matches st;
     ex_count := S (ex_count st); feature_count := feature_count st;
     result_count := result_count st |}.

Definition count_feature (st : JoinState) : JoinState :=
  {| eval_examples := eval_examples st;
     num_failed_matches := num_failed_matches st;
     ex_count := ex_count st; feature_count := S (feature_count st);
     result_count := result_count st |}.

Definition count_result (st : JoinState) : JoinState :=
  {| eval_examples := eval_examples st;
     num_failed_matches := num_failed_matches st;
     ex_count := ex_count st; feature_count := feature_count st;
     result_count := S (result_count st) |}.

(** One iteration of the loop over [merged].  When the assertion on a
    feature fails, building its message evaluates [datum['unique id']], a
    key no feature has, so the exception that leaves the loop is that
    [KeyError]. *)
Definition merge_step (st : JoinState) (entry : Z * Datum) : M JoinState :=
  let '(feature_unique_id, datum) := entry in
  match datum with
  | DExample (k, cands) =>
      let st := count_example st in
      ret (with_examples st (eval_examples st ++ [new_example k cands]))
  | DFeature f =>
      let st := count_feature st in
      match last (eval_examples st) with
      | None => warn WarnNoExample ;;; ret (failed_match st)
      | Some current =>
          if decide (example_id current = example_index f) then
            ret (with_examples st
                   (update_last (set_feature feature_unique_id f)
                      (eval_examples st)))
          else raise (KeyError "unique id")
      end
  | DResult r =>
      let st := count_result st in
      match last (eval_examples st) with
      | None => warn WarnNoExample ;;; ret (failed_match st)
      | Some _ =>
          ret (with_examples st
                 (update_last (set_result feature_unique_id r)
                    (eval_examples st)))
      end
  end.

Fixpoint merge_loop (merged : list (Z * Datum)) (st : JoinState)
  : M JoinState :=
  match merged with
  | [] => ret st
  | entry :: rest => st' <- merge_step st entry ;; merge_loop rest st'
  end.

Definition by_key (y x : Z * Datum) : bool := y.1 <? x.1.

Definition raw_results_by_id (raw_results : list RawResult)
  : list (Z * Datum) :=
  (λ res, (unique_id res + 1, DResult res)) <$> raw_results.

(** [list(zip(example_ids, all_candidates))] and
    [list(zip(feature_ids, features))]. *)
Definition examples_by_id (example_ids : list Z)
    (all_candidates : list (Z * list Candidate)) : list (Z * Datum) :=
  zip example_ids (DExample <$> all_candidates).

Definition features_by_id (feature_ids : list Z) (features : list Feature)
  : list (Z * Datum) :=
  zip feature_ids (DFeature <$> features).

(** The loop over [merged] and the report of the failed matches. *)
Definition join_loop (merged : list (Z * Datum)) : M (list EvalExample) :=
  st <- merge_loop merged join_start ;;
  (if (0 <? num_failed_matches st)%nat
   then warn (WarnFailedMatches (num_failed_matches st))
   else ret tt) ;;;
  ret (eval_examples st).

(** The join of [compute_pred_dict], up to the report of failed matches.
    The two conversions to [int32] come first and may raise. *)
Definition join_records (candidates_dict : list (Z * list Candidate))
    (dev_features : list Feature) (raw_results : list RawResult)
  : M (list EvalExample) :=
  let raw_results_by_id := raw_results_by_id raw_results in
  let all_candidates := candidates_dict in
  example_ids <- np_array_int32 (all_candidates.*1) ;;
  match examples_by_id example_ids all_candidates with
  | [] => raise (ValueError "No examples candidates found.")
  | (_ :: _) as examples_by_id =>
      feature_ids <-
        np_array_int32 ((λ f, unique_ids f + 1) <$> dev_features) ;;
      let features_by_id := features_by_id feature_ids dev_features in
      join_loop (py_sorted by_key
                   (examples_by_id ++ raw_results_by_id ++ features_by_id))
  end.

(** *** The join after conversions that succeed

    A conversion that succeeds stores [int32 z] for [z] (which is [z] in
    the 32-bit range); the records are then keyed and merged as
    follows, and the join is [join_converted]. *)
Definition keyed_examples (candidates_dict : list (Z * list Candidate))
  : list (Z * Datum) :=
  (λ item, (int32 item.1, DExample item)) <$> candidates_dict.

Definition keyed_features (dev_features : list Feature) : list (Z * Datum) :=
  (λ f, (int32 (unique_ids f + 1), DFeature f)) <$> dev_features.

Definition merged_records (candidates_dict : list (Z * list Candidate))
    (dev_features : list Feature) (raw_results : list RawResult)
  : list (Z * Datum) :=
  py_sorted by_key (keyed_examples candidates_dict
                    ++ raw_results_by_id raw_results
                    ++ keyed_features dev_features).

Definition join_converted (candidates_dict : list (Z * list Candidate))
    (dev_features : list Feature) (raw_results : list RawResult)
  : M (list EvalExample) :=
  match keyed_examples candidates_dict with
  | [] => raise (ValueError "No examples candidates found.")
  | _ :: _ =>
      join_loop (merged_records candidates_dict dev_features raw_results)
  end.

(** ** [compute_pred_dict]: the parallel reduction *)

(** The loop over [pool.imap_unordered(...)]: the outcomes of the tasks in
    the order in which they arrive.  A task that raised re-raises here. *)
Fixpoint collect_results
    (arrivals : list (M (option (Z * option PredictedLabel))))
    (tydi_pred_dict : gmap Z (option PredictedLabel))
  : M (gmap Z (option PredictedLabel)) :=
  match arrivals with
  | [] => ret tydi_pred_dict
  | task :: rest =>
      result <- task ;;
      match result with
      | Some (k, label) => collect_results rest (<[k := label]> tydi_pred_dict)
      | None => collect_results rest tydi_pred_dict
      end
  end.

(** [arrival_order] is the order in which the pool hands the tasks'
    outcomes back; the pool guarantees only that it is a rearrangement of
    the submitted tasks. *)
Definition reduce_examples (arrival_order : list EvalExample)
    (candidate_beam max_answer_length : Z)
  : M (gmap Z (option PredictedLabel)) :=
  collect_results
    ((λ e, construct_prediction_object e candidate_beam max_answer_length)
       <$> arrival_order) ∅.

Definition compute_pred_dict
    (schedule : list EvalExample → list EvalExample)
    (candidates_dict : list (Z * list Candidate))
    (dev_features : list Feature) (raw_results : list RawResult)
    (candidate_beam max_answer_length : Z)
  : M (gmap Z (option PredictedLabel)) :=
  eval_examples <- join_records candidates_dict dev_features raw_results ;;
  match eval_examples with
  | [] => raise IndexError
  | _ :: _ =>
      reduce_examples (schedule eval_examples) candidate_beam
        max_answer_length
  end.

End Postproc.

Arguments RawResult T : clear implicits.
Arguments PredictedLabel T : clear implicits.
Arguments ScoreSummary T : clear implicits.
Arguments Prediction T : clear implicits.
Arguments EvalExample T : clear implicits.
Arguments Datum T : clear implicits.
Arguments JoinState T : clear implicits.

(** The winning entry of [predictions], when [compute_predictions] gets as
    far as choosing one. *)
Definition winning_prediction `{Score T} (language_name_of : Z → option string)
    (eval_example : EvalExample T) (candidate_beam max_answer_length : Z)
  : option (Prediction T) :=
  match collect_predictions language_name_of eval_example candidate_beam
          max_answer_length with
  | (_, Ok (Some predictions)) => py_max predictions
  | _ => None
  end.

Definition is_example {T} (d : Datum T) : bool :=
  match d with DExample _ => true | _ => false end.

Definition count_record {T} (d : Datum T) (st : JoinState T) : JoinState T :=
  match d with
  | DExample _ => count_example st
  | DFeature _ => count_feature st
  | DResult _ => count_result st
  end.

Definition log_of {A} (m : M A) : list warning := m.1.
Definition outcome_of {A} (m : M A) : result A := m.2.

(** * Properties *)

(** ** Laws of the logging monad *)

Lemma bind_ret_l {A B} (a : A) (k : A → M B) : bind (ret a) k = k a.
Proof. unfold bind, ret. simpl. by destruct (k a). Qed.

Lemma bind_ret_r {A} (m : M A) : bind m ret = m.
Proof.
  destruct m as [w [a|e]]; simpl; [|done].
  by rewrite app_nil_r.
Qed.

Lemma bind_assoc {A B C} (m : M A) (k : A → M B) (h : B → M C) :
  bind (bind m k) h = bind m (λ a, bind (k a) h).
Proof.
  destruct m as [w [a|e]]; simpl; [|done].
  destruct (k a) as [w' [b|e]]; simpl; [|done].
  by rewrite app_assoc.
Qed.

Lemma bind_ok {A B} (m : M A) (k : A → M B) w b :
  bind m k = (w, Ok b) →
  ∃ w1 a w2, m = (w1, Ok a) ∧ k a = (w2, Ok b) ∧ w = w1 ++ w2.
Proof.
  destruct m as [w1 [a|e]]; simpl; [|done].
  destruct (k a) as [w2 r] eqn:E. simpl. intros [= <- <-]. eauto 6.
Qed.

(** ** The stable sort *)

Section Sorting.

Context {A : Type} (stays_before : A → A → bool).

Lemma insert_sorted_perm (x : A) (l : list A) :
  insert_sorted stays_before x l ≡ₚ x :: l.
Proof.
  induction l as [|y l IH]; simpl; [done|].
  destruct (stays_before y x); [|done].
  rewrite IH. apply Permutation_swap.
Qed.

Lemma py_sorted_perm (l : list A) : py_sorted stays_before l ≡ₚ l.
Proof.
  induction l as [|x l IH]; simpl; [done|].
  rewrite insert_sorted_perm. by rewrite IH.
Qed.

(** [R] is an order the comparison of [sorted] decides. *)
Context (R : relation A) `{!Transitive R}.
Hypothesis before_R : ∀ x y, stays_before y x = true → R y x.
Hypothesis not_before_R : ∀ x y, stays_before y x = false → R x y.

Lemma insert_sorted_sorted (x : A) (l : list A) :
  StronglySorted R l → StronglySorted R (insert_sorted stays_before x l).
Proof.
  induction 1 as [|y l Hl IH Hy]; simpl.
  - repeat constructor.
  - destruct (stays_before y x) eqn:E.
    + constructor; [exact IH|].
      rewrite insert_sorted_perm. constructor; [by apply before_R|exact Hy].
    + constructor; [by constructor|].
      apply not_before_R in E. constructor; [exact E|].
      eapply Forall_impl; [exact Hy|]. intros z Hz. by trans y.
Qed.

Lemma py_sorted_sorted (l : list A) : StronglySorted R (py_sorted stays_before l).
Proof.
  induction l as [|x l IH]; simpl; [constructor|].
  by apply insert_sorted_sorted.
Qed.

End Sorting.

(** The same for a comparison that is an order only on the elements that
    satisfy [P]. *)
Section SortingOn.

Context {A : Type} (stays_before : A → A → bool).
Context (R : relation A) (P : A → Prop).
Hypothesis R_trans : ∀ x y z, P x → P y → P z → R x y → R y z → R x z.
Hypothesis before_R : ∀ x y, P x → P y → stays_before y x = true → R y x.
Hypothesis not_before_R :
  ∀ x y, P x → P y → stays_before y x = false → R x y.



End SortingOn.


Lemma enumerate_lookup {A} (l : list A) (start i : nat) (x : A) :
  (i, x) ∈ enumerate start l ↔ (start ≤ i)%nat ∧ l !! (i - start)%nat = Some x.
Proof.
  revert start. induction l as [|y l IH]; intros start; simpl.
  - split; [by intros ?%elem_of_nil|by intros [_ ?]].
  - rewrite elem_of_cons, IH. split.
    + intros [[= -> ->]|[Hle Hl]].
      * split; [lia|]. by rewrite Nat.sub_diag.
      * split; [lia|]. by replace (i - start)%nat with (S (i - S start)) by lia.
    + intros [Hle Hl]. destruct (decide (i = start)) as [->|Hne].
      * left. rewrite Nat.sub_diag in Hl. simpl in Hl. congruence.
      * right. split; [lia|].
        by replace (i - start)%nat with (S (i - S start)) in Hl by lia.
Qed.


Lemma int32_small (z : Z) : in_int32 z → int32 z = z.
Proof.
  unfold in_int32, int32. intros Hz.
  rewrite Z.mod_small; lia.
Qed.

Section Properties.

Context {T : Type} `{Score T} `{NumPy}.
Variable language_name_of : Z → option string.

(** ** The beam of [get_best_indexes] *)


Lemma best_loop_take (n_best_size : Z) (l : list (nat * T)) (i : nat) :
  best_loop i n_best_size l = (take (Z.to_nat n_best_size - i) l).*1.
Proof.
  revert i. induction l as [|x l IH]; intros i; simpl.
  - by rewrite take_nil.
  - destruct (Z.of_nat i >=? n_best_size) eqn:E.
    + rewrite Z.geb_le in E.
      by replace (Z.to_nat n_best_size - i)%nat with 0%nat by lia.
    + rewrite Z.geb_leb, Z.leb_gt in E.
      replace (Z.to_nat n_best_size - i)%nat
        with (S (Z.to_nat n_best_size - S i)) by lia.
      simpl. by rewrite IH.
Qed.

Definition ranked (logits : list T) : list (nat * T) :=
  py_sorted by_score_desc (enumerate 1 (tail logits)).

Lemma get_best_indexes_take (logits : list T) (n_best_size : Z) :
  get_best_indexes logits n_best_size
  = (take (Z.to_nat n_best_size) (ranked logits)).*1.
Proof.
  unfold get_best_indexes. rewrite best_loop_take. by rewrite Nat.sub_0_r.
Qed.

Lemma ranked_elem (logits : list T) (i : nat) (x : T) :
  (i, x) ∈ ranked logits ↔ (1 ≤ i)%nat ∧ logits !! i = Some x.
Proof.
  unfold ranked. rewrite py_sorted_perm, enumerate_lookup, lookup_tail.
  split; intros [Hle Hl]; (split; [done|]).
  - by replace i with (S (i - 1)) at 1 by lia.
  - by replace (S (i - 1)) with i by lia.
Qed.



(** The values of [l] are comparable with each other, as floats other
    than NaN are: on them [<] is asymmetric and "not below" is
    transitive. *)
Definition comparable (l : list T) : Prop :=
  (∀ a b, a ∈ l → b ∈ l → score_ltb a b = true → score_ltb b a = false)
  ∧ (∀ a b c, a ∈ l → b ∈ l → c ∈ l →
              score_ltb a b = false → score_ltb b c = false →
              score_ltb a c = false).

Lemma weak_order_comparable (l : list T) : weak_order T → comparable l.
Proof. intros [Hasym Hneg]. split; eauto. Qed.



Lemma merge_loop_cons (entry : Z * Datum T) (rest : list (Z * Datum T))
    (st : JoinState T) :
  merge_loop (entry :: rest) st
  = bind (merge_step st entry) (λ st', merge_loop rest st').
Proof. reflexivity. Qed.

(** ** The empty candidate store *)

(** C10: with an empty [candidates_dict], [compute_pred_dict] raises
    [ValueError("No examples candidates found.")]; nothing was joined,
    scored or logged before, whatever the features, the results, the
    parameters and the schedule of the pool are. *)
Theorem empty_candidates_raise
    (schedule : list (EvalExample T) → list (EvalExample T))
    (dev_features : list Feature) (raw_results : list (RawResult T))
    (candidate_beam max_answer_length : Z) :
  compute_pred_dict language_name_of schedule [] dev_features raw_results
    candidate_beam max_answer_length
  = ([], Raise (ValueError "No examples candidates found.")).
Proof. reflexivity. Qed.

(** ** Records met before any example *)

(** C5: when [eval_examples] is still empty, a Feature or Result record is
    counted, a warning is logged, [num_failed_matches] grows by one, no
    aggregate is created, and the loop goes on with the remaining records:
    the outcome of the join is the outcome of the loop over the rest. *)
Theorem record_before_example_skipped
    (st : JoinState T) (key : Z) (datum : Datum T)
    (rest : list (Z * Datum T)) :
  eval_examples st = [] →
  is_example datum = false →
  let st' := failed_match (count_record datum st) in
  merge_step st (key, datum) = ([WarnNoExample], Ok st')
  ∧ eval_examples st' = []
  ∧ num_failed_matches st' = S (num_failed_matches st)
  ∧ log_of (merge_loop ((key, datum) :: rest) st)
    = WarnNoExample :: log_of (merge_loop rest st')
  ∧ outcome_of (merge_loop ((key, datum) :: rest) st)
    = outcome_of (merge_loop rest st').
Proof.
  intros Hempty Hd st'.
  assert (Hstep : merge_step st (key, datum) = ([WarnNoExample], Ok st')).
  { subst st'. destruct datum as [item|f|r]; [done| |];
      simpl; rewrite Hempty; reflexivity. }
  split; [exact Hstep|].
  split; [subst st'; by destruct datum|].
  split; [subst st'; by destruct datum|].
  rewrite merge_loop_cons, Hstep. simpl. auto.
Qed.

(** ** The integrity check of the join *)

(** C4 (as the code has it): a Feature whose [example_index] differs from
    the id of the current aggregate stops the loop with an exception, the
    remaining records are not processed; a Result is never checked: with a
    current aggregate it is stored there and the loop goes on. *)
Theorem join_integrity_check
    (st : JoinState T) (current : EvalExample T) (key : Z)
    (rest : list (Z * Datum T)) :
  last (eval_examples st) = Some current →
  (∀ f : Feature,
      example_id current ≠ example_index f →
      merge_loop ((key, DFeature f) :: rest) st
      = ([], Raise (KeyError "unique id")))
  ∧ (∀ r : RawResult T,
      merge_step st (key, DResult r)
      = ([], Ok (with_examples (count_result st)
                   (update_last (set_result key r) (eval_examples st))))
      ∧ merge_loop ((key, DResult r) :: rest) st
        = merge_loop rest
            (with_examples (count_result st)
               (update_last (set_result key r) (eval_examples st)))).
Proof.
  intros Hlast. split.
  - intros f Hne. rewrite merge_loop_cons. simpl. rewrite Hlast.
    destruct (decide (example_id current = example_index f)); done.
  - intros r.
    assert (Hstep : merge_step st (key, DResult r)
      = ([], Ok (with_examples (count_result st)
                   (update_last (set_result key r) (eval_examples st))))).
    { simpl. by rewrite Hlast. }
    split; [exact Hstep|].
    rewrite merge_loop_cons, Hstep.
    apply (bind_ret_l _ (λ st', merge_loop rest st')).
Qed.

(** ** Early exits of the scorer *)

(** C6 (as the code has it): without results the scorer returns [None]
    and logs nothing; with results whose number differs from the number of
    features it returns [None] and logs one warning. *)
Theorem scorer_early_exits
    (eval_example : EvalExample T) (candidate_beam max_answer_length : Z) :
  (results eval_example = [] →
   compute_predictions language_name_of eval_example candidate_beam
     max_answer_length = ([], Ok None))
  ∧ (results eval_example ≠ [] →
     size (features eval_example) ≠ length (results eval_example) →
     compute_predictions language_name_of eval_example candidate_beam
       max_answer_length
     = ([WarnCountMismatch (size (features eval_example))
           (length (results eval_example)) (example_id eval_example)],
        Ok None)).
Proof.
  unfold compute_predictions, collect_predictions. split.
  - intros ->. reflexivity.
  - intros Hne Hsize. destruct (results eval_example) eqn:E; [done|].
    rewrite decide_True by done. reflexivity.
Qed.

(** ** What the scorer's loops put into [predictions] *)

(** The checks an entry went through before it was appended. *)
Definition span_valid (feature : Feature) (max_answer_length : Z)
    (p : Prediction T) : Prop :=
  wp_start_offset feature !! p_start_index p = Some (p_start_offset p)
  ∧ p_start_offset p ≠ -1
  ∧ wp_end_offset feature !! p_end_index p = Some (p_end_offset p - 1)
  ∧ p_end_offset p - 1 ≠ -1
  ∧ (p_start_index p ≤ p_end_index p)%nat
  ∧ Z.of_nat (p_end_index p) - Z.of_nat (p_start_index p) + 1
    ≤ max_answer_length.

Definition from_beams (result : RawResult T) (n_best_size : Z)
    (p : Prediction T) : Prop :=
  p_start_index p ∈ get_best_indexes (start_logits result) n_best_size
  ∧ p_end_index p ∈ get_best_indexes (end_logits result) n_best_size.

Lemma py_index_bind {A B} (l : list A) (i : nat) (k : A → M B) :
  bind (py_index l i) k
  = match l !! i with Some x => k x | None => raise IndexError end.
Proof. unfold py_index. destruct (l !! i); [apply bind_ret_l|done]. Qed.

Lemma end_loop_ok result feature lang cls max_answer_length start_index
    end_indexes predictions w out :
  end_loop result feature lang cls max_answer_length start_index
    end_indexes predictions = (w, Ok out) →
  w = [] ∧ ∃ new, out = predictions ++ new
    ∧ Forall (λ p, span_valid feature max_answer_length p
                   ∧ p_start_index p = start_index
                   ∧ p_end_index p ∈ end_indexes) new.
Proof.
  revert predictions w out.
  induction end_indexes as [|end_index rest IH]; intros predictions w out.
  - intros [= <- <-]. split; [done|]. exists []. by rewrite app_nil_r.
  - assert (Hweaken : ∀ new,
      Forall (λ p, span_valid feature max_answer_length p
                   ∧ p_start_index p = start_index
                   ∧ p_end_index p ∈ rest) new →
      Forall (λ p, span_valid feature max_answer_length p
                   ∧ p_start_index p = start_index
                   ∧ p_end_index p ∈ end_index :: rest) new).
    { intros new Hall. eapply Forall_impl; [exact Hall|].
      intros p (Hv & Hs & He).
      split; [exact Hv|]. split; [exact Hs|].
      by apply list_elem_of_further. }
    assert (Hskip :
      end_loop result feature lang cls max_answer_length start_index rest
        predictions = (w, Ok out) →
      w = [] ∧ ∃ new, out = predictions ++ new
        ∧ Forall (λ p, span_valid feature max_answer_length p
                       ∧ p_start_index p = start_index
                       ∧ p_end_index p ∈ end_index :: rest) new).
    { intros Hrun. destruct (IH _ _ _ Hrun) as [-> [new [-> Hnew]]].
      split; [done|]. exists new. split; [done|]. by apply Hweaken. }
    simpl. destruct (end_index <? start_index)%nat eqn:Hord; [exact Hskip|].
    rewrite py_index_bind.
    destruct (wp_start_offset feature !! start_index) as [so|] eqn:Hso; [|done].
    destruct (so =? -1) eqn:Hsent1; [exact Hskip|].
    rewrite py_index_bind.
    destruct (wp_end_offset feature !! end_index) as [eo|] eqn:Heo; [|done].
    destruct (eo =? -1) eqn:Hsent2; [exact Hskip|].
    destruct (_ >? max_answer_length) eqn:Hlen; [exact Hskip|].
    rewrite py_index_bind.
    destruct (start_logits result !! start_index) as [sl|]; [|done].
    rewrite py_index_bind.
    destruct (end_logits result !! end_index) as [el|]; [|done].
    intros Hrun. destruct (IH _ _ _ Hrun) as [-> [new [-> Hnew]]].
    split; [done|]. eexists (_ :: new). split.
    { by rewrite <- app_assoc. }
    constructor; [|by apply Hweaken].
    apply Nat.ltb_ge in Hord. apply Z.eqb_neq in Hsent1, Hsent2.
    rewrite Z.gtb_ltb in Hlen. apply Z.ltb_ge in Hlen.
    split; [|split; [done|apply list_elem_of_here]].
    unfold span_valid. simpl.
    replace (eo + 1 - 1) with eo by lia. done.
Qed.

Lemma start_loop_ok result feature lang cls max_answer_length
    start_indexes end_indexes predictions w out :
  start_loop result feature lang cls max_answer_length start_indexes
    end_indexes predictions = (w, Ok out) →
  w = [] ∧ ∃ new, out = predictions ++ new
    ∧ Forall (λ p, span_valid feature max_answer_length p
                   ∧ p_start_index p ∈ start_indexes
                   ∧ p_end_index p ∈ end_indexes) new.
Proof.
  revert predictions w out.
  induction start_indexes as [|start_index rest IH]; intros predictions w out.
  - intros [= <- <-]. split; [done|]. exists []. by rewrite app_nil_r.
  - simpl. intros Hrun. apply bind_ok in Hrun as (w1 & mid & w2 & H1 & H2 & ->).
    apply end_loop_ok in H1 as [-> [new1 [-> Hnew1]]].
    apply IH in H2 as [-> [new2 [-> Hnew2]]].
    split; [done|]. exists (new1 ++ new2). split; [by rewrite app_assoc|].
    apply Forall_app. split.
    + eapply Forall_impl; [exact Hnew1|].
      intros p (Hv & -> & He). split; [exact Hv|].
      split; [apply list_elem_of_here|exact He].
    + eapply Forall_impl; [exact Hnew2|].
      intros p (Hv & Hs & He). split; [exact Hv|].
      split; [by apply list_elem_of_further|exact He].
Qed.

(** An entry of [predictions] comes from a result of the example and the
    feature stored under the same id. *)
Definition scored_span (eval_example : EvalExample T)
    (n_best_size max_answer_length : Z) (p : Prediction T) : Prop :=
  ∃ uid result feature,
    (uid, result) ∈ results eval_example
    ∧ features eval_example !! uid = Some feature
    ∧ span_valid feature max_answer_length p
    ∧ from_beams result n_best_size p.

Lemma results_loop_ok eval_example n_best_size max_answer_length items
    predictions w out :
  items ⊆ results eval_example →
  results_loop language_name_of eval_example n_best_size max_answer_length
    items predictions = (w, Ok (Some out)) →
  w = [] ∧ ∃ new, out = predictions ++ new
    ∧ Forall (scored_span eval_example n_best_size max_answer_length) new.
Proof.
  revert predictions w out.
  induction items as [|[uid result] rest IH]; intros predictions w out Hsub.
  - intros [= <- <-]. split; [done|]. exists []. by rewrite app_nil_r.
  - simpl.
    destruct (features eval_example !! uid) as [feature|] eqn:Hf; [|done].
    rewrite py_index_bind.
    destruct (language_id feature !! 0%nat) as [lang_id|]; [|done].
    unfold lookup_language.
    destruct (language_name_of lang_id) as [lang|]; [|done].
    rewrite bind_ret_l, py_index_bind.
    destruct (start_logits result !! 0%nat) as [s0|]; [|done].
    rewrite py_index_bind.
    destruct (end_logits result !! 0%nat) as [e0|]; [|done].
    intros Hrun. apply bind_ok in Hrun as (w1 & mid & w2 & H1 & H2 & ->).
    apply start_loop_ok in H1 as [-> [new1 [-> Hnew1]]].
    apply IH in H2 as [-> [new2 [-> Hnew2]]];
      [|intros x Hx; by apply Hsub, list_elem_of_further].
    split; [done|]. exists (new1 ++ new2). split; [by rewrite app_assoc|].
    apply Forall_app. split; [|done].
    eapply Forall_impl; [exact Hnew1|].
    intros p (Hv & Hs & He). exists uid, result, feature.
    split; [apply Hsub, list_elem_of_here|]. done.
Qed.

Lemma collect_predictions_ok eval_example candidate_beam max_answer_length
    w predictions :
  collect_predictions language_name_of eval_example candidate_beam
    max_answer_length = (w, Ok (Some predictions)) →
  w = []
  ∧ Forall (scored_span eval_example candidate_beam max_answer_length)
      predictions.
Proof.
  unfold collect_predictions.
  destruct (results eval_example) eqn:E; [done|]. rewrite <- E.
  case_decide; [done|].
  intros Hrun. apply results_loop_ok in Hrun as [-> [new [-> Hnew]]]; done.
Qed.

Lemma max_loop_elem (best : Prediction T) (l : list (Prediction T)) :
  max_loop best l ∈ best :: l.
Proof.
  revert best. induction l as [|p l IH]; intros best; simpl.
  - apply list_elem_of_here.
  - destruct (score_ltb _ _).
    + apply list_elem_of_further, IH.
    + specialize (IH best). apply elem_of_cons in IH as [->|IH].
      * apply list_elem_of_here.
      * by do 2 apply list_elem_of_further.
Qed.

Lemma py_max_elem (l : list (Prediction T)) (best : Prediction T) :
  py_max l = Some best → best ∈ l.
Proof.
  destruct l as [|p l]; [done|]. intros [= <-]. apply max_loop_elem.
Qed.

(** How a returned summary was assembled. *)
Lemma compute_predictions_some eval_example candidate_beam max_answer_length
    w summary :
  compute_predictions language_name_of eval_example candidate_beam
    max_answer_length = (w, Ok (Some summary)) →
  ∃ best passage_span_index,
    winning_prediction language_name_of eval_example candidate_beam
      max_answer_length = Some best
    ∧ scored_span eval_example candidate_beam max_answer_length best
    ∧ resolve_passage eval_example
        {| start_byte_offset := p_start_offset best;
           end_byte_offset := p_end_offset best |}
      = (w, Ok passage_span_index)
    ∧ summary = with_label (p_summary best)
                  (label_of eval_example best passage_span_index).
Proof.
  unfold compute_predictions, winning_prediction. intros Hrun.
  apply bind_ok in Hrun as (w1 & collected & w2 & H1 & H2 & ->).
  rewrite H1. destruct collected as [predictions|]; [|done].
  apply collect_predictions_ok in H1 as [-> Hall].
  destruct (py_max predictions) as [best|] eqn:Hmax; [|done].
  apply bind_ok in H2 as (w3 & idx & w4 & H3 & [= <- <-] & ->).
  exists best, idx. rewrite app_nil_r. simpl. repeat split; try done.
  apply py_max_elem in Hmax. by eapply Forall_forall in Hall.
Qed.

(** ** Validity of the returned span *)

(** Offset arrays in which no content token ends before an earlier content
    token starts. *)
Definition offsets_ordered (eval_example : EvalExample T) : Prop :=
  ∀ uid feature s e so eo,
    features eval_example !! uid = Some feature →
    (s ≤ e)%nat →
    wp_start_offset feature !! s = Some so → so ≠ -1 →
    wp_end_offset feature !! e = Some eo → eo ≠ -1 →
    so ≤ eo + 1.

(** C3 (as the code has it): a returned span comes from a token pair
    [(start_index, end_index)] of one feature of the example, taken from
    the two beams of the matching result, with [start_index ≤ end_index],
    neither offset entry equal to the sentinel [-1], and at most
    [max_answer_length] tokens.  The byte offsets are ordered whenever the
    offset arrays of the example are ([offsets_ordered]); the code compares
    token positions only. *)
Theorem returned_span_valid
    (eval_example : EvalExample T) (candidate_beam max_answer_length : Z)
    (w : list warning) (summary : ScoreSummary T) :
  compute_predictions language_name_of eval_example candidate_beam
    max_answer_length = (w, Ok (Some summary)) →
  ∃ label best uid result feature,
    predicted_label summary = Some label
    ∧ winning_prediction language_name_of eval_example candidate_beam
        max_answer_length = Some best
    ∧ (uid, result) ∈ results eval_example
    ∧ features eval_example !! uid = Some feature
    ∧ p_start_index best
        ∈ get_best_indexes (start_logits result) candidate_beam
    ∧ p_end_index best ∈ get_best_indexes (end_logits result) candidate_beam
    ∧ wp_start_offset feature !! p_start_index best
      = Some (start_byte_offset (minimal_answer label))
    ∧ start_byte_offset (minimal_answer label) ≠ -1
    ∧ wp_end_offset feature !! p_end_index best
      = Some (end_byte_offset (minimal_answer label) - 1)
    ∧ end_byte_offset (minimal_answer label) - 1 ≠ -1
    ∧ (p_start_index best ≤ p_end_index best)%nat
    ∧ Z.of_nat (p_end_index best) - Z.of_nat (p_start_index best) + 1
      ≤ max_answer_length
    ∧ (offsets_ordered eval_example →
       start_byte_offset (minimal_answer label)
       ≤ end_byte_offset (minimal_answer label)).
Proof.
  intros Hrun.
  apply compute_predictions_some in Hrun
    as (best & idx & Hwin & Hscored & _ & ->).
  destruct Hscored as (uid & result & feature & Hin & Hf & Hvalid & Hb1 & Hb2).
  destruct Hvalid as (Hso & Hs1 & Heo & He1 & Hord & Hlen).
  exists (label_of eval_example best idx), best, uid, result, feature.
  simpl. repeat (split; [done|]).
  intros Hordered.
  pose proof (Hordered _ _ _ _ _ _ Hf Hord Hso Hs1 Heo He1). lia.
Qed.

(** ** Passage resolution *)

Definition contains (c : Candidate) (span : Span) : Prop :=
  plaintext_start_byte c ≤ start_byte_offset span
  ∧ end_byte_offset span ≤ plaintext_end_byte c.

Lemma contains_span_true c span :
  contains_span c (start_byte_offset span) (end_byte_offset span) = true
  ↔ contains c span.
Proof.
  unfold contains_span, contains.
  rewrite andb_true_iff, Z.leb_le, Z.geb_le. lia.
Qed.

Lemma contains_span_false c span :
  contains_span c (start_byte_offset span) (end_byte_offset span) = false
  ↔ ¬ contains c span.
Proof.
  rewrite <- contains_span_true. by destruct (contains_span _ _ _).
Qed.

Lemma passage_loop_some (cands : list Candidate) (span : Span) :
  ∀ c_ind i,
    passage_loop c_ind cands (start_byte_offset span) (end_byte_offset span)
    = Some i →
    ∃ j c, i = (c_ind + j)%nat ∧ cands !! j = Some c ∧ contains c span
           ∧ ∀ j' c', (j' < j)%nat → cands !! j' = Some c' →
                      ¬ contains c' span.
Proof.
  induction cands as [|c rest IH]; intros c_ind i; simpl; [done|].
  destruct (contains_span c _ _) eqn:Hc.
  - intros [= <-]. exists 0%nat, c. apply contains_span_true in Hc.
    split; [lia|]. split; [done|]. split; [exact Hc|]. intros; lia.
  - intros Hloop. apply IH in Hloop as (j & c1 & -> & Hj & Hc1 & Hbefore).
    exists (S j), c1. split; [lia|]. split; [done|]. split; [exact Hc1|].
    intros [|j'] c' Hlt; simpl.
    + intros [= <-]. by apply contains_span_false.
    + apply Hbefore. lia.
Qed.

Lemma passage_loop_none (cands : list Candidate) (span : Span) :
  ∀ c_ind,
    passage_loop c_ind cands (start_byte_offset span) (end_byte_offset span)
    = None →
    ∀ c, c ∈ cands → ¬ contains c span.
Proof.
  induction cands as [|c rest IH]; intros c_ind; simpl.
  - intros _ c Hc. by apply elem_of_nil in Hc.
  - destruct (contains_span c _ _) eqn:Hc; [done|].
    intros Hloop c' [->|Hin]%elem_of_cons.
    + by apply contains_span_false.
    + by eapply IH.
Qed.

(** C8: the passage index of a returned label is what the scan of the
    candidate list gives for the returned span: the position of the first
    candidate containing the span, and no warning; or, when no candidate
    contains it, [0] together with one warning.  The two scenarios of the
    specification are instances. *)
Theorem passage_resolution :
  (∀ (eval_example : EvalExample T) (candidate_beam max_answer_length : Z)
     (w : list warning) (summary : ScoreSummary T),
      compute_predictions language_name_of eval_example candidate_beam
        max_answer_length = (w, Ok (Some summary)) →
      ∃ label,
        predicted_label summary = Some label
        ∧ resolve_passage eval_example (minimal_answer label)
          = (w, Ok (passage_answer_index label))
        ∧ ((∃ c, candidates eval_example !! passage_answer_index label
                 = Some c
                 ∧ contains c (minimal_answer label)
                 ∧ (∀ j c', (j < passage_answer_index label)%nat →
                            candidates eval_example !! j = Some c' →
                            ¬ contains c' (minimal_answer label))
                 ∧ w = [])
           ∨ ((∀ c, c ∈ candidates eval_example →
                    ¬ contains c (minimal_answer label))
              ∧ passage_answer_index label = 0%nat
              ∧ w = [WarnNoPassage (example_id eval_example)])))
  ∧ (∀ eval_example : EvalExample T,
        candidates eval_example
        = [ {| plaintext_start_byte := 0; plaintext_end_byte := 10 |};
            {| plaintext_start_byte := 10; plaintext_end_byte := 25 |} ] →
        resolve_passage eval_example
          {| start_byte_offset := 12; end_byte_offset := 20 |}
        = ([], Ok 1%nat))
  ∧ (∀ eval_example : EvalExample T,
        candidates eval_example
        = [ {| plaintext_start_byte := 0; plaintext_end_byte := 5 |} ] →
        resolve_passage eval_example
          {| start_byte_offset := 10; end_byte_offset := 15 |}
        = ([WarnNoPassage (example_id eval_example)], Ok 0%nat)).
Proof.
  split; [|split].
  - intros eval_example candidate_beam max_answer_length w summary Hrun.
    apply compute_predictions_some in Hrun
      as (best & idx & _ & _ & Hres & ->).
    exists (label_of eval_example best idx). simpl.
    split; [done|]. split; [exact Hres|].
    unfold resolve_passage in Hres.
    destruct (passage_loop _ _ _ _) as [i|] eqn:Hloop.
    + injection Hres as <- <-. left.
      apply passage_loop_some in Hloop as (j & c & -> & Hj & Hc & Hbefore).
      exists c. simpl. split; [done|]. split; [exact Hc|]. done.
    + injection Hres as <- <-. right.
      split; [|done]. by eapply passage_loop_none.
  - intros eval_example Hc. unfold resolve_passage. by rewrite Hc.
  - intros eval_example Hc. unfold resolve_passage. by rewrite Hc.
Qed.

(** ** The reduction over the pool *)

(** The mapping [compute_pred_dict] returns, if it returns. *)
Definition output_mapping (m : M (gmap Z (option (PredictedLabel T))))
  : option (gmap Z (option (PredictedLabel T))) :=
  match m.2 with
  | Ok d => Some d
  | Raise _ => None
  end.

(** The entries the loop writes, in the order of arrival; [None] when a
    task raised. *)
Fixpoint arrived
    (arrivals : list (M (option (Z * option (PredictedLabel T)))))
  : option (list (Z * option (PredictedLabel T))) :=
  match arrivals with
  | [] => Some []
  | (_, Raise _) :: _ => None
  | (_, Ok None) :: rest => arrived rest
  | (_, Ok (Some kv)) :: rest => (kv ::.) <$> arrived rest
  end.

Definition write_entry (d : gmap Z (option (PredictedLabel T)))
    (kv : Z * option (PredictedLabel T)) : gmap Z (option (PredictedLabel T)) :=
  <[kv.1 := kv.2]> d.

Lemma collect_results_arrived arrivals d :
  output_mapping (collect_results arrivals d)
  = (λ kvs, foldl write_entry d kvs) <$> arrived arrivals.
Proof.
  revert d. induction arrivals as [|[w [[[k v]|]|e]] rest IH]; intros d.
  - done.
  - simpl. specialize (IH (<[k:=v]> d)). unfold output_mapping in *.
    simpl. rewrite IH. by destruct (arrived rest).
  - simpl. specialize (IH d). unfold output_mapping in *. simpl. by rewrite IH.
  - done.
Qed.

Lemma foldl_write_entry (kvs : list (Z * option (PredictedLabel T))) d :
  NoDup kvs.*1 → foldl write_entry d kvs = list_to_map kvs ∪ d.
Proof.
  revert d. induction kvs as [|[k v] kvs IH]; intros d Hnd; simpl.
  - by rewrite (left_id_L ∅ (∪)).
  - apply NoDup_cons in Hnd as [Hk Hnd]. rewrite IH by done.
    unfold write_entry. simpl.
    rewrite <- insert_union_r by by apply not_elem_of_list_to_map_1.
    by rewrite insert_union_l.
Qed.

Definition same_entries {X} (a b : option (list X)) : Prop :=
  match a, b with
  | Some x, Some y => x ≡ₚ y
  | None, None => True
  | _, _ => False
  end.

Lemma arrived_perm arrivals arrivals' :
  arrivals ≡ₚ arrivals' → same_entries (arrived arrivals) (arrived arrivals').
Proof.
  induction 1 as [|[w [[kv|]|e]] l l' Hperm IH
                  |[w1 [[kv1|]|e1]] [w2 [[kv2|]|e2]] l|l1 l2 l3 _ IH1 _ IH2];
    simpl; try done.
  - destruct (arrived l), (arrived l'); simpl in *; try done.
    by constructor.
  - destruct (arrived l); simpl; [apply Permutation_swap|done].
  - destruct (arrived l); simpl; done.
  - destruct (arrived l); simpl; done.
  - destruct (arrived l); simpl; done.
  - destruct (arrived l1), (arrived l2), (arrived l3); simpl in *; try done.
    by etrans.
Qed.

Lemma construct_key eval_example candidate_beam max_answer_length w k label :
  construct_prediction_object language_name_of eval_example candidate_beam
    max_answer_length = (w, Ok (Some (k, label))) →
  k = example_id eval_example.
Proof.
  unfold construct_prediction_object. intros Hrun.
  apply bind_ok in Hrun as (w1 & [summary|] & w2 & _ & Hret & _);
    unfold ret in Hret; congruence.
Qed.

Lemma arrived_keys (eval_examples : list (EvalExample T))
    candidate_beam max_answer_length kvs :
  arrived ((λ e, construct_prediction_object language_name_of e
                   candidate_beam max_answer_length) <$> eval_examples)
  = Some kvs →
  kvs.*1 `sublist_of` (example_id <$> eval_examples).
Proof.
  revert kvs. induction eval_examples as [|e rest IH]; intros kvs; simpl.
  - by intros [= <-].
  - destruct (construct_prediction_object _ _ _ _)
      as [w [[[k label]|]|err]] eqn:Hc; [| |done].
    + apply construct_key in Hc as ->.
      destruct (arrived _) as [kvs'|]; [|done]. intros [= <-]. simpl.
      apply sublist_skip. by apply IH.
    + intros Hrest. apply sublist_cons. by apply IH.
Qed.

Lemma reduce_examples_perm (eval_examples arrival_order : list (EvalExample T))
    (candidate_beam max_answer_length : Z) :
  NoDup (example_id <$> eval_examples) →
  arrival_order ≡ₚ eval_examples →
  output_mapping (reduce_examples language_name_of arrival_order
                    candidate_beam max_answer_length)
  = output_mapping (reduce_examples language_name_of eval_examples
                      candidate_beam max_answer_length).
Proof.
  intros Hnd Hperm. unfold reduce_examples.
  rewrite !collect_results_arrived.
  pose proof (arrived_keys arrival_order candidate_beam max_answer_length)
    as Hk1.
  pose proof (arrived_keys eval_examples candidate_beam max_answer_length)
    as Hk2.
  assert (Hperm' :
    (λ e, construct_prediction_object language_name_of e candidate_beam
            max_answer_length) <$> arrival_order
    ≡ₚ (λ e, construct_prediction_object language_name_of e candidate_beam
               max_answer_length) <$> eval_examples) by by rewrite Hperm.
  apply arrived_perm in Hperm'.
  destruct (arrived _) as [kvs1|], (arrived _) as [kvs2|]; try done.
  simpl in *. f_equal.
  assert (NoDup kvs2.*1) as Hnd2
    by (eapply sublist_NoDup; [exact Hnd|by apply Hk2]).
  assert (NoDup kvs1.*1) as Hnd1 by by rewrite Hperm'.
  rewrite !foldl_write_entry by done.
  f_equal. by apply list_to_map_proper.
Qed.

(** ** The merge-join *)

Definition example_key (k : Z) : Z := int32 k.
Definition feature_key (f : Feature) : Z := int32 (unique_ids f + 1).
Definition result_key (r : RawResult T) : Z := unique_id r + 1.

Definition example_item (entry : Z * Datum T) : option (Z * list Candidate) :=
  match entry.2 with DExample item => Some item | _ => None end.

Definition feature_entry_key (entry : Z * Datum T) : option Z :=
  match entry.2 with DFeature _ => Some entry.1 | _ => None end.

Definition result_entry_key (entry : Z * Datum T) : option Z :=
  match entry.2 with DResult _ => Some entry.1 | _ => None end.

Definition item_of (e : EvalExample T) : Z * list Candidate :=
  (example_id e, candidates e).

(** Example [k] owns the derived id [x]: [x] sorts strictly after the id of
    [k] and strictly before the id of the next example; no other example
    has its id in between. *)
Definition owns (candidates_dict : list (Z * list Candidate)) (k x : Z)
  : Prop :=
  k ∈ candidates_dict.*1
  ∧ example_key k < x
  ∧ ∀ k', k' ∈ candidates_dict.*1 → k' ≠ k →
          example_key k' < example_key k ∨ x < example_key k'.

Lemma owns_unique candidates_dict k1 k2 x :
  owns candidates_dict k1 x → owns candidates_dict k2 x → k1 = k2.
Proof.
  intros (Hin1 & Hlt1 & Hnext1) (Hin2 & Hlt2 & Hnext2).
  destruct (decide (k1 = k2)) as [|Hne]; [done|].
  destruct (Hnext1 k2 Hin2) as [?|?]; [congruence| |lia].
  destruct (Hnext2 k1 Hin1) as [?|?]; [congruence|lia..].
Qed.

Lemma merge_loop_app (l1 l2 : list (Z * Datum T)) (st : JoinState T) :
  merge_loop (l1 ++ l2) st
  = bind (merge_loop l1 st) (λ st', merge_loop l2 st').
Proof.
  revert st. induction l1 as [|entry l1 IH]; intros st.
  - simpl app. symmetry. apply (bind_ret_l st (λ st', merge_loop l2 st')).
  - simpl app. rewrite !merge_loop_cons, bind_assoc.
    destruct (merge_step st entry) as [w [st'|e]]; [|done].
    simpl. by rewrite IH.
Qed.

Lemma merge_loop_snoc (l : list (Z * Datum T)) (entry : Z * Datum T)
    (st st' : JoinState T) :
  merge_loop l st = ([], Ok st') →
  merge_loop (l ++ [entry]) st = merge_step st' entry.
Proof.
  intros Hrun. rewrite merge_loop_app, Hrun.
  exact (eq_trans (bind_ret_l st' (λ st', merge_loop [entry] st'))
           (bind_ret_r (merge_step st' entry))).
Qed.

Lemma update_last_snoc {A} (g : A → A) (l : list A) (x : A) :
  update_last g (l ++ [x]) = l ++ [g x].
Proof.
  unfold update_last. rewrite length_app. simpl.
  replace (pred (length l + 1)) with (length l + 0)%nat by lia.
  by rewrite alter_app_r.
Qed.

Lemma dict_set_elem {V} (d : list (Z * V)) (k : Z) (v : V) k' v' :
  (k', v') ∈ dict_set d k v → (k' = k ∧ v' = v) ∨ (k', v') ∈ d.
Proof.
  induction d as [|[k0 v0] d IH]; simpl.
  - intros Hin. apply list_elem_of_singleton in Hin as [= -> ->]. by left.
  - destruct (decide (k0 = k)) as [->|Hne].
    + intros [[= -> ->]|Hin]%elem_of_cons; [by left|].
      right. by apply list_elem_of_further.
    + intros [[= -> ->]|Hin]%elem_of_cons.
      * right. apply list_elem_of_here.
      * destruct (IH Hin) as [?|?]; [by left|].
        right. by apply list_elem_of_further.
Qed.

Lemma dict_set_new {V} (d : list (Z * V)) (k : Z) (v : V) :
  (k, v) ∈ dict_set d k v.
Proof.
  induction d as [|[k0 v0] d IH]; simpl.
  - apply list_elem_of_here.
  - destruct (decide (k0 = k)) as [->|Hne].
    + apply list_elem_of_here.
    + by apply list_elem_of_further.
Qed.

Lemma dict_set_other {V} (d : list (Z * V)) (k : Z) (v : V) k' v' :
  k' ≠ k → (k', v') ∈ d → (k', v') ∈ dict_set d k v.
Proof.
  intros Hne. induction d as [|[k0 v0] d IH]; simpl;
    [by intros ?%elem_of_nil|].
  intros [[= -> ->]|Hin]%elem_of_cons.
  - rewrite decide_False by done. apply list_elem_of_here.
  - destruct (decide (k0 = k)); apply list_elem_of_further; auto.
Qed.

(** What the loop has built after the records [l]. *)
Record joined (candidates_dict : list (Z * list Candidate))
    (l : list (Z * Datum T)) (st : JoinState T) : Prop := {
  joined_items :
    item_of <$> eval_examples st = omap example_item l;
  joined_features_sound :
    ∀ e u g, e ∈ eval_examples st → features e !! u = Some g →
             (u, DFeature g) ∈ l ∧ example_index g = example_id e;
  joined_results_sound :
    ∀ e u r, e ∈ eval_examples st → (u, r) ∈ results e →
             (u, DResult r) ∈ l ∧ owns candidates_dict (example_id e) u;
  joined_features_complete :
    ∀ u g, (u, DFeature g) ∈ l →
           ∃ e, e ∈ eval_examples st ∧ features e !! u = Some g;
  joined_results_complete :
    ∀ u r, (u, DResult r) ∈ l →
           ∃ e, e ∈ eval_examples st ∧ (u, r) ∈ results e;
  joined_no_failure : num_failed_matches st = 0%nat
}.

Lemma joined_start candidates_dict : joined candidates_dict [] join_start.
Proof.
  split; simpl; try done.
  - by intros e u g ?%elem_of_nil.
  - by intros e u r ?%elem_of_nil.
  - by intros u g ?%elem_of_nil.
  - by intros u r ?%elem_of_nil.
Qed.

Lemma elem_of_snoc {A} (l : list A) (x y : A) :
  y ∈ l ++ [x] ↔ y ∈ l ∨ y = x.
Proof. by rewrite elem_of_app, list_elem_of_singleton. Qed.

Lemma joined_example candidates_dict l st key k cands :
  joined candidates_dict l st →
  joined candidates_dict (l ++ [(key, DExample (k, cands))])
    (with_examples (count_example st)
       (eval_examples st ++ [new_example k cands])).
Proof.
  intros [Hitems Hfs Hrs Hfc Hrc Hfail]. split; simpl.
  - by rewrite fmap_snoc, omap_app, Hitems.
  - intros e u g [He| ->]%elem_of_snoc Hg; [|done].
    destruct (Hfs e u g He Hg) as [Hin Hidx].
    split; [|done]. apply elem_of_snoc. by left.
  - intros e u r [He| ->]%elem_of_snoc Hr; [|by apply elem_of_nil in Hr].
    destruct (Hrs e u r He Hr) as [Hin Hown].
    split; [|done]. apply elem_of_snoc. by left.
  - intros u g [Hin|[=]]%elem_of_snoc.
    destruct (Hfc u g Hin) as (e & He & Hg).
    exists e. split; [|done]. apply elem_of_snoc. by left.
  - intros u r [Hin|[=]]%elem_of_snoc.
    destruct (Hrc u r Hin) as (e & He & Hr).
    exists e. split; [|done]. apply elem_of_snoc. by left.
  - done.
Qed.

Lemma joined_feature candidates_dict l st evs current u g :
  joined candidates_dict l st →
  eval_examples st = evs ++ [current] →
  example_id current = example_index g →
  u ∉ omap feature_entry_key l →
  joined candidates_dict (l ++ [(u, DFeature g)])
    (with_examples (count_feature st) (evs ++ [set_feature u g current])).
Proof.
  intros [Hitems Hfs Hrs Hfc Hrc Hfail] Hevs Hid Hfresh.
  rewrite Hevs in *. split; simpl.
  - rewrite fmap_snoc, omap_app. rewrite fmap_snoc in Hitems.
    simpl. by rewrite app_nil_r.
  - intros e u' g' [He| ->]%elem_of_snoc; simpl.
    + intros Hg. destruct (Hfs e u' g') as [Hin Hidx]; [|done|].
      { apply elem_of_snoc. by left. }
      split; [|done]. apply elem_of_snoc. by left.
    + intros [[-> ->]|[Hne Hg]]%lookup_insert_Some.
      * split; [|done]. apply elem_of_snoc. by right.
      * destruct (Hfs current u' g') as [Hin Hidx]; [|done|].
        { apply elem_of_snoc. by right. }
        split; [|done]. apply elem_of_snoc. by left.
  - intros e u' r [He| ->]%elem_of_snoc; simpl; intros Hr.
    + destruct (Hrs e u' r) as [Hin Hown]; [|done|].
      { apply elem_of_snoc. by left. }
      split; [|done]. apply elem_of_snoc. by left.
    + destruct (Hrs current u' r) as [Hin Hown]; [|done|].
      { apply elem_of_snoc. by right. }
      split; [|done]. apply elem_of_snoc. by left.
  - intros u' g' [Hin|[= -> ->]]%elem_of_snoc.
    + destruct (Hfc u' g' Hin) as (e & [He| ->]%elem_of_snoc & Hg).
      * exists e. split; [|done]. apply elem_of_snoc. by left.
      * exists (set_feature u g current).
        split; [apply elem_of_snoc; by right|]. simpl.
        rewrite lookup_insert_ne; [done|]. intros ->. apply Hfresh.
        apply list_elem_of_omap. by exists (u', DFeature g').
    + exists (set_feature u g current).
      split; [apply elem_of_snoc; by right|]. simpl.
      apply lookup_insert_eq.
  - intros u' r [Hin|[=]]%elem_of_snoc.
    destruct (Hrc u' r Hin) as (e & [He| ->]%elem_of_snoc & Hr).
    + exists e. split; [|done]. apply elem_of_snoc. by left.
    + exists (set_feature u g current).
      split; [apply elem_of_snoc; by right|done].
  - done.
Qed.

Lemma joined_result candidates_dict l st evs current u r :
  joined candidates_dict l st →
  eval_examples st = evs ++ [current] →
  owns candidates_dict (example_id current) u →
  u ∉ omap result_entry_key l →
  joined candidates_dict (l ++ [(u, DResult r)])
    (with_examples (count_result st) (evs ++ [set_result u r current])).
Proof.
  intros [Hitems Hfs Hrs Hfc Hrc Hfail] Hevs Hown Hfresh.
  rewrite Hevs in *. split; simpl.
  - rewrite fmap_snoc, omap_app. rewrite fmap_snoc in Hitems.
    simpl. by rewrite app_nil_r.
  - intros e u' g [He| ->]%elem_of_snoc; simpl; intros Hg.
    + destruct (Hfs e u' g) as [Hin Hidx]; [|done|].
      { apply elem_of_snoc. by left. }
      split; [|done]. apply elem_of_snoc. by left.
    + destruct (Hfs current u' g) as [Hin Hidx]; [|done|].
      { apply elem_of_snoc. by right. }
      split; [|done]. apply elem_of_snoc. by left.
  - intros e u' r' [He| ->]%elem_of_snoc; simpl.
    + intros Hr. destruct (Hrs e u' r') as [Hin Hown']; [|done|].
      { apply elem_of_snoc. by left. }
      split; [|done]. apply elem_of_snoc. by left.
    + intros [[-> ->]|Hr]%dict_set_elem.
      * split; [|done]. apply elem_of_snoc. by right.
      * destruct (Hrs current u' r') as [Hin Hown']; [|done|].
        { apply elem_of_snoc. by right. }
        split; [|done]. apply elem_of_snoc. by left.
  - intros u' g [Hin|[=]]%elem_of_snoc.
    destruct (Hfc u' g Hin) as (e & [He| ->]%elem_of_snoc & Hg).
    + exists e. split; [|done]. apply elem_of_snoc. by left.
    + exists (set_result u r current).
      split; [apply elem_of_snoc; by right|done].
  - intros u' r' [Hin|[= -> ->]]%elem_of_snoc.
    + destruct (Hrc u' r' Hin) as (e & [He| ->]%elem_of_snoc & Hr).
      * exists e. split; [|done]. apply elem_of_snoc. by left.
      * exists (set_result u r current).
        split; [apply elem_of_snoc; by right|]. simpl.
        apply dict_set_other; [|done]. intros ->. apply Hfresh.
        apply list_elem_of_omap. by exists (u, DResult r').
    + exists (set_result u r current).
      split; [apply elem_of_snoc; by right|]. simpl.
      apply dict_set_new.
  - done.
Qed.

(** The positions of the records in [merged] that the identifier
    invariant provides: derived ids are not repeated, and the example
    record that precedes a feature or result record most closely is the
    one of its owner. *)
Record well_placed (candidates_dict : list (Z * list Candidate))
    (merged : list (Z * Datum T)) : Prop := {
  placed_feature_keys : NoDup (omap feature_entry_key merged);
  placed_result_keys : NoDup (omap result_entry_key merged);
  placed_feature :
    ∀ l u g l', merged = l ++ (u, DFeature g) :: l' →
                last (omap example_item l).*1 = Some (example_index g);
  placed_result :
    ∀ l u r l', merged = l ++ (u, DResult r) :: l' →
                ∃ k, last (omap example_item l).*1 = Some k
                     ∧ owns candidates_dict k u
}.

Lemma current_example (l : list (Z * Datum T)) (st : JoinState T) (k : Z)
    candidates_dict :
  joined candidates_dict l st →
  last (omap example_item l).*1 = Some k →
  ∃ evs current, eval_examples st = evs ++ [current]
                 ∧ last (eval_examples st) = Some current
                 ∧ example_id current = k.
Proof.
  intros Hj. rewrite <- (joined_items _ _ _ Hj), <- list_fmap_compose.
  rewrite fmap_last. destruct (last (eval_examples st)) as [current|] eqn:E;
    [|done].
  intros [= <-]. apply last_Some in E as [evs Hevs].
  by exists evs, current.
Qed.

Lemma join_prefix candidates_dict merged :
  well_placed candidates_dict merged →
  ∀ l l', merged = l ++ l' →
          ∃ st, merge_loop l join_start = ([], Ok st)
                ∧ joined candidates_dict l st.
Proof.
  intros [Hfk Hrk Hpf Hpr] l.
  induction l as [|[key datum] l IH] using rev_ind; intros l' Hsplit.
  - exists join_start. split; [done|apply joined_start].
  - rewrite <- app_assoc in Hsplit. simpl in Hsplit.
    destruct (IH _ Hsplit) as (st & Hrun & Hj).
    rewrite (merge_loop_snoc _ _ _ _ Hrun).
    destruct datum as [[k cands]|g|r].
    + exists (with_examples (count_example st)
                (eval_examples st ++ [new_example k cands])).
      split; [reflexivity|]. by apply joined_example.
    + pose proof (Hpf _ _ _ _ Hsplit) as Hlast.
      destruct (current_example _ _ _ _ Hj Hlast)
        as (evs & current & Hevs & Hcur & Hid).
      assert (key ∉ omap feature_entry_key l) as Hfresh.
      { rewrite Hsplit, omap_app in Hfk. simpl in Hfk.
        apply NoDup_app in Hfk as (_ & Hdisj & _).
        intros Hin. apply (Hdisj _ Hin). apply list_elem_of_here. }
      exists (with_examples (count_feature st)
                (evs ++ [set_feature key g current])).
      split; [|by eapply joined_feature].
      simpl. rewrite Hcur, decide_True by done.
      by rewrite Hevs, update_last_snoc.
    + destruct (Hpr _ _ _ _ Hsplit) as (k & Hlast & Hown).
      destruct (current_example _ _ _ _ Hj Hlast)
        as (evs & current & Hevs & Hcur & <-).
      assert (key ∉ omap result_entry_key l) as Hfresh.
      { rewrite Hsplit, omap_app in Hrk. simpl in Hrk.
        apply NoDup_app in Hrk as (_ & Hdisj & _).
        intros Hin. apply (Hdisj _ Hin). apply list_elem_of_here. }
      exists (with_examples (count_result st)
                (evs ++ [set_result key r current])).
      split; [|by eapply joined_result].
      simpl. rewrite Hcur. by rewrite Hevs, update_last_snoc.
Qed.

(** *** The sorted list of records *)

Definition key_le (a b : Z * Datum T) : Prop := a.1 ≤ b.1.

Lemma merged_records_perm
    (candidates_dict : list (Z * list Candidate))
    (dev_features : list Feature) (raw_results : list (RawResult T)) :
  merged_records candidates_dict dev_features raw_results
  ≡ₚ keyed_examples candidates_dict ++ raw_results_by_id raw_results
     ++ keyed_features dev_features.
Proof. apply py_sorted_perm. Qed.

Lemma merged_records_sorted
    (candidates_dict : list (Z * list Candidate))
    (dev_features : list Feature) (raw_results : list (RawResult T)) :
  StronglySorted key_le
    (merged_records candidates_dict dev_features raw_results).
Proof.
  apply py_sorted_sorted.
  - intros a b c. unfold key_le. lia.
  - intros x y. unfold by_key, key_le. rewrite Z.ltb_lt. lia.
  - intros x y. unfold by_key, key_le. rewrite Z.ltb_ge. lia.
Qed.

Lemma omap_fmap_Some {A B C} (f : A → B) (g : B → option C) (h : A → C)
    (l : list A) :
  (∀ x, g (f x) = Some (h x)) → omap g (f <$> l) = h <$> l.
Proof.
  intros Hg. induction l as [|x l IH]; [done|].
  csimpl. rewrite Hg. csimpl. by rewrite IH.
Qed.

Lemma omap_fmap_None {A B C} (f : A → B) (g : B → option C) (l : list A) :
  (∀ x, g (f x) = None) → omap g (f <$> l) = [].
Proof.
  intros Hg. induction l as [|x l IH]; [done|]. csimpl. by rewrite Hg.
Qed.

Lemma merged_example_items
    (candidates_dict : list (Z * list Candidate))
    (dev_features : list Feature) (raw_results : list (RawResult T)) :
  omap example_item (merged_records candidates_dict dev_features raw_results)
  ≡ₚ candidates_dict.
Proof.
  rewrite merged_records_perm, !omap_app.
  unfold keyed_examples, raw_results_by_id, keyed_features.
  rewrite (omap_fmap_Some _ _ id), (omap_fmap_None _ example_item),
    (omap_fmap_None _ example_item) by done.
  by rewrite list_fmap_id, !app_nil_r.
Qed.

Lemma merged_feature_keys
    (candidates_dict : list (Z * list Candidate))
    (dev_features : list Feature) (raw_results : list (RawResult T)) :
  omap feature_entry_key
    (merged_records candidates_dict dev_features raw_results)
  ≡ₚ feature_key <$> dev_features.
Proof.
  rewrite merged_records_perm, !omap_app.
  unfold keyed_examples, raw_results_by_id, keyed_features.
  rewrite (omap_fmap_None _ feature_entry_key),
    (omap_fmap_None _ feature_entry_key),
    (omap_fmap_Some _ _ feature_key) by done.
  done.
Qed.

Lemma merged_result_keys
    (candidates_dict : list (Z * list Candidate))
    (dev_features : list Feature) (raw_results : list (RawResult T)) :
  omap result_entry_key
    (merged_records candidates_dict dev_features raw_results)
  ≡ₚ result_key <$> raw_results.
Proof.
  rewrite merged_records_perm, !omap_app.
  unfold keyed_examples, raw_results_by_id, keyed_features.
  rewrite (omap_fmap_None _ result_entry_key),
    (omap_fmap_Some _ _ result_key),
    (omap_fmap_None _ result_entry_key) by done.
  by rewrite app_nil_r.
Qed.

(** The shape of the records of [merged]. *)
Lemma merged_entry
    (candidates_dict : list (Z * list Candidate))
    (dev_features : list Feature) (raw_results : list (RawResult T)) key datum :
  (key, datum) ∈ merged_records candidates_dict dev_features raw_results ↔
  match datum with
  | DExample item => item ∈ candidates_dict ∧ key = example_key item.1
  | DFeature g => g ∈ dev_features ∧ key = feature_key g
  | DResult r => r ∈ raw_results ∧ key = result_key r
  end.
Proof.
  rewrite merged_records_perm, !elem_of_app.
  unfold keyed_examples, raw_results_by_id, keyed_features.
  rewrite !list_elem_of_fmap. split.
  - intros [(item & [= -> ->] & Hin)|[(r & [= -> ->] & Hin)
                                     |(g & [= -> ->] & Hin)]]; done.
  - destruct datum as [item|g|r]; intros [Hin ->].
    + left. by exists item.
    + right. right. by exists g.
    + right. left. by exists r.
Qed.

Lemma last_omap_split {A B} (f : A → option B) (l : list A) (y : B) :
  last (omap f l) = Some y →
  ∃ l1 x l2, l = l1 ++ x :: l2 ∧ f x = Some y ∧ omap f l2 = [].
Proof.
  induction l as [|x l IH] using rev_ind; [done|].
  rewrite omap_app. simpl. destruct (f x) as [y'|] eqn:E.
  - rewrite last_snoc. intros [= ->]. exists l, x, []. by rewrite E.
  - rewrite app_nil_r. intros (l1 & x' & l2 & -> & Hx' & Hl2)%IH.
    exists l1, x', (l2 ++ [x]). rewrite <- app_assoc. split; [done|].
    split; [done|]. rewrite omap_app, Hl2. simpl. by rewrite E.
Qed.

(** In the sorted list, the example record closest before a record with
    the derived id [x] is the record of the example that owns [x]. *)
Lemma owner_precedes
    (candidates_dict : list (Z * list Candidate))
    (dev_features : list Feature) (raw_results : list (RawResult T)) l entry l' k :
  merged_records candidates_dict dev_features raw_results
  = l ++ entry :: l' →
  example_item entry = None →
  owns candidates_dict k entry.1 →
  last (omap example_item l).*1 = Some k.
Proof.
  intros Hsplit Hentry (Hin & Hlt & Hnext).
  pose proof (merged_records_sorted candidates_dict dev_features raw_results)
    as Hsorted.
  rewrite Hsplit in Hsorted.
  apply list_elem_of_fmap in Hin as ([k0 cands] & -> & Hin). simpl in *.
  assert ((example_key k0, DExample (k0, cands)) ∈ l) as Hk.
  { assert ((example_key k0, DExample (k0, cands))
            ∈ merged_records candidates_dict dev_features raw_results) as Hm
      by by apply merged_entry.
    rewrite Hsplit in Hm.
    apply elem_of_app in Hm as [Hm|[Heq|Hm]%elem_of_cons]; [done| |].
    { by rewrite <- Heq in Hentry. }
    apply StronglySorted_app_1_r in Hsorted.
    apply StronglySorted_inv in Hsorted as [_ Hall].
    eapply Forall_forall in Hall; [|exact Hm].
    unfold key_le in Hall. simpl in Hall. lia. }
  destruct (last (omap example_item l).*1) as [k'|] eqn:Hlast.
  2:{ apply last_None, fmap_nil_inv in Hlast.
      assert ((k0, cands) ∈ omap example_item l) as Hempty
        by (apply list_elem_of_omap; by eexists).
      rewrite Hlast in Hempty. by apply elem_of_nil in Hempty. }
  f_equal. rewrite fmap_last in Hlast.
  destruct (last (omap example_item l)) as [[k1 cands1]|] eqn:Hlast1;
    [|done].
  injection Hlast as <-. simpl.
  apply last_omap_split in Hlast1 as (l1 & [key1 datum1] & l2 & -> & Hx & Hl2).
  destruct datum1 as [item| |]; try done. injection Hx as ->.
  assert ((key1, DExample (k1, cands1))
          ∈ merged_records candidates_dict dev_features raw_results) as Hm.
  { rewrite Hsplit. apply elem_of_app. left. apply elem_of_app. right.
    apply list_elem_of_here. }
  apply merged_entry in Hm as [Hin1 ->]. simpl in *.
  destruct (decide (k1 = k0)) as [|Hne]; [done|]. exfalso.
  destruct (Hnext k1) as [Hbelow|Habove]; [|done| |].
  - apply list_elem_of_fmap. by exists (k1, cands1).
  - apply elem_of_app in Hk as [Hk|[[= ? ?]|Hk]%elem_of_cons]; [|done|].
    + apply StronglySorted_app_1_l in Hsorted.
      pose proof (StronglySorted_app_1_elem_of _ _ _ _ _ Hsorted Hk
                    (list_elem_of_here _ _)) as Hle.
      unfold key_le in Hle. simpl in Hle. lia.
    + assert ((k0, cands) ∈ omap example_item l2) as Hempty
        by (apply list_elem_of_omap; by eexists).
      rewrite Hl2 in Hempty. by apply elem_of_nil in Hempty.
  - assert (key_le (example_key k1, DExample (k1, cands1)) entry) as Hle.
    { eapply (StronglySorted_app_1_elem_of _ _ _ _ _ Hsorted);
        [|apply list_elem_of_here].
      apply elem_of_app. right. apply list_elem_of_here. }
    unfold key_le in Hle. simpl in Hle. lia.
Qed.

(** *** The two conversions *)

Lemma bind_nil_ok {A B} (a : A) (k : A → M B) : bind ([], Ok a) k = k a.
Proof. exact (bind_ret_l a k). Qed.

Lemma np_array_int32_cases (ids : list Z) :
  np_array_int32 ids = ([], Ok (int32 <$> ids))
  ∨ np_array_int32 ids = ([], Raise OverflowError).
Proof.
  induction ids as [|z ids IH]; [by left|]. simpl. unfold np_int32.
  case_decide as Hz.
  - destruct IH as [-> | ->]; [left|by right].
    simpl. by rewrite int32_small.
  - destruct (wraps z); [|by right].
    destruct IH as [-> | ->]; [by left|by right].
Qed.

Lemma np_array_int32_in_range (ids : list Z) :
  Forall in_int32 ids → np_array_int32 ids = ([], Ok (int32 <$> ids)).
Proof.
  induction 1 as [|z ids Hz _ IH]; [done|]. simpl. unfold np_int32.
  rewrite decide_True by done. rewrite IH. simpl.
  by rewrite int32_small.
Qed.

Lemma examples_by_id_keyed (candidates_dict : list (Z * list Candidate)) :
  examples_by_id (T:=T) (int32 <$> candidates_dict.*1) candidates_dict
  = keyed_examples candidates_dict.
Proof.
  unfold examples_by_id, keyed_examples.
  induction candidates_dict as [|item rest IH]; [done|].
  csimpl. by rewrite IH.
Qed.

Lemma features_by_id_keyed (dev_features : list Feature) :
  features_by_id (T:=T)
    (int32 <$> ((λ f, unique_ids f + 1) <$> dev_features)) dev_features
  = keyed_features dev_features.
Proof.
  unfold features_by_id, keyed_features.
  induction dev_features as [|f rest IH]; [done|].
  csimpl. by rewrite IH.
Qed.

(** The join raises [OverflowError], with an empty log, when a conversion
    fails, and is the join over the converted keys otherwise. *)
Lemma join_records_after_conversions
    (candidates_dict : list (Z * list Candidate))
    (dev_features : list Feature) (raw_results : list (RawResult T)) :
  np_array_int32 candidates_dict.*1
  = ([], Ok (int32 <$> candidates_dict.*1)) →
  (candidates_dict ≠ [] →
   np_array_int32 ((λ f, unique_ids f + 1) <$> dev_features)
   = ([], Ok (int32 <$> ((λ f, unique_ids f + 1) <$> dev_features)))) →
  join_records candidates_dict dev_features raw_results
  = join_converted candidates_dict dev_features raw_results.
Proof.
  intros Hex Hfeat. unfold join_records, join_converted, merged_records.
  rewrite Hex, bind_nil_ok, examples_by_id_keyed.
  destruct candidates_dict as [|item rest]; [done|].
  rewrite Hfeat by done.
  destruct (keyed_examples (item :: rest)); [done|].
  by rewrite bind_nil_ok, features_by_id_keyed.
Qed.

Lemma join_records_cases
    (candidates_dict : list (Z * list Candidate))
    (dev_features : list Feature) (raw_results : list (RawResult T)) :
  join_records candidates_dict dev_features raw_results
  = join_converted candidates_dict dev_features raw_results
  ∨ join_records candidates_dict dev_features raw_results
    = ([], Raise OverflowError).
Proof.
  destruct (np_array_int32_cases candidates_dict.*1) as [Hex|Hex].
  - destruct (np_array_int32_cases
                ((λ f, unique_ids f + 1) <$> dev_features)) as [Hfeat|Hfeat].
    + left. by apply join_records_after_conversions.
    + destruct candidates_dict as [|item rest].
      * left. by apply join_records_after_conversions.
      * right. unfold join_records.
        rewrite Hex, bind_nil_ok, examples_by_id_keyed. simpl.
        by rewrite Hfeat.
  - right. unfold join_records. by rewrite Hex.
Qed.

Lemma join_records_converted
    (candidates_dict : list (Z * list Candidate))
    (dev_features : list Feature) (raw_results : list (RawResult T))
    w (aggregates : list (EvalExample T)) :
  join_records candidates_dict dev_features raw_results
  = (w, Ok aggregates) →
  join_converted candidates_dict dev_features raw_results
  = (w, Ok aggregates).
Proof.
  destruct (join_records_cases candidates_dict dev_features raw_results)
    as [-> | ->]; done.
Qed.

Lemma join_records_in_range
    (candidates_dict : list (Z * list Candidate))
    (dev_features : list Feature) (raw_results : list (RawResult T)) :
  Forall in_int32 candidates_dict.*1 →
  Forall in_int32 ((λ f, unique_ids f + 1) <$> dev_features) →
  join_records candidates_dict dev_features raw_results
  = join_converted candidates_dict dev_features raw_results.
Proof.
  intros Hex Hfeat. apply join_records_after_conversions.
  - by apply np_array_int32_in_range.
  - intros _. by apply np_array_int32_in_range.
Qed.

(** *** The identifier invariant *)

(** Derived ids are not shared among features nor among results; the
    derived id of a feature is owned by the example the feature records as
    its own ([example_index]); the derived id of a result is owned by some
    example. *)
Record identifier_invariant (candidates_dict : list (Z * list Candidate))
    (dev_features : list Feature) (raw_results : list (RawResult T))
  : Prop := {
  unique_feature_ids : NoDup (feature_key <$> dev_features);
  unique_result_ids : NoDup (result_key <$> raw_results);
  feature_owner :
    ∀ g, g ∈ dev_features →
         owns candidates_dict (example_index g) (feature_key g);
  result_owner :
    ∀ r, r ∈ raw_results → ∃ k, owns candidates_dict k (result_key r)
}.

Lemma invariant_well_placed
    (candidates_dict : list (Z * list Candidate))
    (dev_features : list Feature) (raw_results : list (RawResult T)) :
  identifier_invariant candidates_dict dev_features raw_results →
  well_placed candidates_dict
    (merged_records candidates_dict dev_features raw_results).
Proof.
  intros [Hfu Hru Hfo Hro]. split.
  - by rewrite merged_feature_keys.
  - by rewrite merged_result_keys.
  - intros l u g l' Hsplit.
    assert ((u, DFeature g)
            ∈ merged_records candidates_dict dev_features raw_results) as Hm.
    { rewrite Hsplit. apply elem_of_app. right. apply list_elem_of_here. }
    apply merged_entry in Hm as [Hg ->].
    eapply owner_precedes; [exact Hsplit|done|]. by apply Hfo.
  - intros l u r l' Hsplit.
    assert ((u, DResult r)
            ∈ merged_records candidates_dict dev_features raw_results) as Hm.
    { rewrite Hsplit. apply elem_of_app. right. apply list_elem_of_here. }
    apply merged_entry in Hm as [Hr ->].
    destruct (Hro r Hr) as [k Hown]. exists k. split; [|done].
    eapply owner_precedes; [exact Hsplit|done|done].
Qed.

Lemma NoDup_fmap_elem {A B} (f : A → B) (l : list A) (x y : A) :
  NoDup (f <$> l) → x ∈ l → y ∈ l → f x = f y → x = y.
Proof.
  induction l as [|z l IH]; [by intros _ ?%elem_of_nil|].
  rewrite fmap_cons, NoDup_cons.
  intros [Hz Hnd] [->|Hx]%elem_of_cons [->|Hy]%elem_of_cons Heq; auto.
  - exfalso. apply Hz. rewrite Heq. by apply list_elem_of_fmap_2.
  - exfalso. apply Hz. rewrite <- Heq. by apply list_elem_of_fmap_2.
Qed.

Lemma example_ids_sorted (l : list (Z * Datum T)) :
  StronglySorted key_le l →
  (∀ key item, (key, DExample item) ∈ l → key = example_key item.1) →
  StronglySorted (λ a b, example_key a ≤ example_key b)
    (omap example_item l).*1.
Proof.
  induction 1 as [|[key datum] l Hl IH Hall]; intros Hkeys; [constructor|].
  assert (StronglySorted (λ a b, example_key a ≤ example_key b)
            (omap example_item l).*1) as IH'.
  { apply IH. intros key' item Hin. apply Hkeys.
    by apply list_elem_of_further. }
  csimpl. unfold example_item at 1. simpl.
  destruct datum as [item| |]; [|done..]. csimpl.
  constructor; [done|].
  apply Forall_forall. intros k [item' [-> Hin]]%list_elem_of_fmap.
  apply list_elem_of_omap in Hin as ([key' datum'] & Hin & Hitem).
  destruct datum' as [item''| |]; try done. injection Hitem as ->.
  eapply Forall_forall in Hall; [|exact Hin].
  rewrite (Hkeys key item (list_elem_of_here _ _)) in Hall.
  rewrite (Hkeys key' item') in Hall by by apply list_elem_of_further.
  exact Hall.
Qed.

Lemma sorted_ids_strict (ids : list Z) :
  NoDup ids → Forall in_int32 ids →
  StronglySorted (λ a b, example_key a ≤ example_key b) ids →
  StronglySorted Z.lt ids.
Proof.
  intros Hnd Hrange. induction 1 as [|k ids Hsorted IH Hall]; [constructor|].
  apply NoDup_cons in Hnd as [Hk Hnd].
  apply Forall_cons in Hrange as [Hk_range Hrange].
  constructor; [by apply IH|].
  apply Forall_forall. intros k' Hk'.
  pose proof (proj1 (Forall_forall _ _) Hall k' Hk') as Hle.
  pose proof (proj1 (Forall_forall _ _) Hrange k' Hk') as Hk'_range.
  unfold example_key in Hle. rewrite !int32_small in Hle by done.
  assert (k ≠ k') by (intros ->; done). lia.
Qed.

(** Over the converted keys: under the invariant the loop over the sorted
    records ends without exception, warning or failed match; it builds
    one aggregate per example, in the order of the keys; each Feature and
    each Result is stored, under its key, in the aggregate of the example
    that owns this key, and in no other aggregate; nothing else is
    stored. *)
Lemma converted_join_complete
    (candidates_dict : list (Z * list Candidate))
    (dev_features : list Feature) (raw_results : list (RawResult T)) :
  NoDup candidates_dict.*1 →
  identifier_invariant candidates_dict dev_features raw_results →
  ∃ st,
    merge_loop (merged_records candidates_dict dev_features raw_results)
      join_start = ([], Ok st)
    ∧ num_failed_matches st = 0%nat
    ∧ (candidates_dict ≠ [] →
       join_converted candidates_dict dev_features raw_results
       = ([], Ok (eval_examples st)))
    ∧ item_of <$> eval_examples st ≡ₚ candidates_dict
    ∧ NoDup (example_id <$> eval_examples st)
    ∧ StronglySorted (λ a b, example_key a ≤ example_key b)
        (example_id <$> eval_examples st)
    ∧ (Forall in_int32 candidates_dict.*1 →
       StronglySorted Z.lt (example_id <$> eval_examples st))
    ∧ (∀ e g, e ∈ eval_examples st → g ∈ dev_features →
              (features e !! feature_key g = Some g
               ↔ owns candidates_dict (example_id e) (feature_key g)))
    ∧ (∀ e r, e ∈ eval_examples st → r ∈ raw_results →
              ((result_key r, r) ∈ results e
               ↔ owns candidates_dict (example_id e) (result_key r)))
    ∧ (∀ e u g, e ∈ eval_examples st → features e !! u = Some g →
                g ∈ dev_features ∧ u = feature_key g)
    ∧ (∀ e u r, e ∈ eval_examples st → (u, r) ∈ results e →
                r ∈ raw_results ∧ u = result_key r).
Proof.
  intros Hdict Hinv.
  destruct (join_prefix _ _ (invariant_well_placed _ _ _ Hinv)
              (merged_records candidates_dict dev_features raw_results) [])
    as (st & Hrun & Hj); [by rewrite app_nil_r|].
  destruct Hj as [Hitems Hfs Hrs Hfc Hrc Hfail].
  assert (item_of <$> eval_examples st ≡ₚ candidates_dict) as Hperm
    by (rewrite Hitems; apply merged_example_items).
  assert (example_id <$> eval_examples st = (item_of <$> eval_examples st).*1)
    as Hids by by rewrite <- list_fmap_compose.
  assert (NoDup (example_id <$> eval_examples st)) as Hnd
    by by rewrite Hids, Hperm.
  exists st. split; [done|]. split; [done|]. split.
  { intros Hne. unfold join_converted, join_loop.
    destruct candidates_dict as [|item rest]; [done|]. simpl keyed_examples.
    rewrite Hrun.
    rewrite (bind_ret_l st). by rewrite Hfail. }
  assert (StronglySorted (λ a b, example_key a ≤ example_key b)
            (example_id <$> eval_examples st)) as Hsorted.
  { rewrite Hids, Hitems. apply example_ids_sorted.
    - apply merged_records_sorted.
    - intros key item Hin. by apply merged_entry in Hin as [_ ->]. }
  split; [done|]. split; [done|]. split; [done|]. split.
  { intros Hrange. apply sorted_ids_strict; [done| |done].
    rewrite Hids, Hperm. exact Hrange. }
  split; [|split; [|split]].
  - intros e g He Hg. split.
    + intros Hattached. destruct (Hfs e _ g He Hattached) as [_ <-].
      by apply (feature_owner _ _ _ Hinv).
    + intros Hown.
      pose proof (feature_owner _ _ _ Hinv g Hg) as Hown'.
      pose proof (owns_unique _ _ _ _ Hown Hown') as Hid.
      destruct (Hfc (feature_key g) g) as (e' & He' & Hattached).
      { by apply merged_entry. }
      destruct (Hfs e' _ g He' Hattached) as [_ Hid'].
      assert (e = e') as ->; [|done].
      eapply NoDup_fmap_elem; [exact Hnd|done..|congruence].
  - intros e r He Hr. split.
    + intros Hattached. by destruct (Hrs e _ r He Hattached) as [_ ?].
    + intros Hown.
      destruct (Hrc (result_key r) r) as (e' & He' & Hattached).
      { by apply merged_entry. }
      destruct (Hrs e' _ r He' Hattached) as [_ Hown'].
      pose proof (owns_unique _ _ _ _ Hown Hown') as Hid.
      assert (e = e') as ->; [|done].
      eapply NoDup_fmap_elem; [exact Hnd|done..].
  - intros e u g He Hattached. destruct (Hfs e u g He Hattached) as [Hin _].
    by apply merged_entry in Hin.
  - intros e u r He Hattached. destruct (Hrs e u r He Hattached) as [Hin _].
    by apply merged_entry in Hin.
Qed.

(** *** The invariant on the ids as the records carry them *)

(** The derived ids, as Python integers: [f["unique_ids"] + 1] and
    [int(res["unique_id"] + 1)]. *)
Definition derived_feature_id (g : Feature) : Z := unique_ids g + 1.
Definition derived_result_id (r : RawResult T) : Z := unique_id r + 1.

(** [x] sorts strictly after the id [k] of an example and strictly before
    the id of the next example. *)
Definition sorts_under (candidates_dict : list (Z * list Candidate))
    (k x : Z) : Prop :=
  k ∈ candidates_dict.*1
  ∧ k < x
  ∧ ∀ k', k' ∈ candidates_dict.*1 → k' ≠ k → k' < k ∨ x < k'.

(** Each derived Feature id sorts under the example the feature records
    as its own, each derived Result id under some example. *)
Record sorts_after_owner (candidates_dict : list (Z * list Candidate))
    (dev_features : list Feature) (raw_results : list (RawResult T))
  : Prop := {
  feature_sorts :
    ∀ g, g ∈ dev_features →
         sorts_under candidates_dict (example_index g)
           (derived_feature_id g);
  result_sorts :
    ∀ r, r ∈ raw_results →
         ∃ k, sorts_under candidates_dict k (derived_result_id r)
}.

Lemma owns_sorts_under (candidates_dict : list (Z * list Candidate)) k x :
  Forall in_int32 candidates_dict.*1 →
  owns candidates_dict k x ↔ sorts_under candidates_dict k x.
Proof.
  intros Hrange.
  assert (∀ k', k' ∈ candidates_dict.*1 → example_key k' = k') as Hkey.
  { intros k' Hk'. apply int32_small.
    by eapply Forall_forall in Hrange. }
  unfold owns, sorts_under. split; intros (Hin & Hlt & Hnext).
  - split; [done|]. split; [by rewrite <- (Hkey k)|].
    intros k' Hk' Hne. specialize (Hnext k' Hk' Hne).
    by rewrite (Hkey k Hin), (Hkey k' Hk') in Hnext.
  - split; [done|]. split; [by rewrite (Hkey k)|].
    intros k' Hk' Hne. specialize (Hnext k' Hk' Hne).
    by rewrite (Hkey k Hin), (Hkey k' Hk').
Qed.

(** C1 (as the code has it): for a non-empty [candidates_dict] whose
    example ids, and the derived Feature ids, fit in 32 bits (so that the
    conversions to [int32] neither raise nor change an id, whatever NumPy
    is installed), with derived ids that are distinct among the Features
    and among the Results, and under the identifier invariant (each
    derived id sorts strictly after the id of its owning example and
    strictly before the id of the next example), the join ends without
    exception, warning or failed match; it builds one aggregate per
    example, by increasing example id; each Feature and each Result is
    stored, under its derived id, in the aggregate of the example under
    which this id sorts, and in no other aggregate; nothing else is
    stored. *)
Theorem merge_join_complete
    (candidates_dict : list (Z * list Candidate))
    (dev_features : list Feature) (raw_results : list (RawResult T)) :
  NoDup candidates_dict.*1 →
  candidates_dict ≠ [] →
  Forall in_int32 candidates_dict.*1 →
  Forall in_int32 (derived_feature_id <$> dev_features) →
  NoDup (derived_feature_id <$> dev_features) →
  NoDup (derived_result_id <$> raw_results) →
  sorts_after_owner candidates_dict dev_features raw_results →
  ∃ aggregates,
    join_records candidates_dict dev_features raw_results
    = ([], Ok aggregates)
    ∧ item_of <$> aggregates ≡ₚ candidates_dict
    ∧ StronglySorted Z.lt (example_id <$> aggregates)
    ∧ (∀ e g, e ∈ aggregates → g ∈ dev_features →
              (features e !! derived_feature_id g = Some g
               ↔ sorts_under candidates_dict (example_id e)
                   (derived_feature_id g)))
    ∧ (∀ e r, e ∈ aggregates → r ∈ raw_results →
              ((derived_result_id r, r) ∈ results e
               ↔ sorts_under candidates_dict (example_id e)
                   (derived_result_id r)))
    ∧ (∀ e u g, e ∈ aggregates → features e !! u = Some g →
                g ∈ dev_features ∧ u = derived_feature_id g)
    ∧ (∀ e u r, e ∈ aggregates → (u, r) ∈ results e →
                r ∈ raw_results ∧ u = derived_result_id r).
Proof.
  intros Hdict Hne Hrange Hfrange Hfnd Hrnd [Hfo Hro].
  assert (∀ g, g ∈ dev_features → feature_key g = derived_feature_id g)
    as Hfkey.
  { intros g Hg. apply int32_small.
    apply (proj1 (Forall_forall _ _) Hfrange).
    by apply (list_elem_of_fmap_2 derived_feature_id). }
  assert (identifier_invariant candidates_dict dev_features raw_results)
    as Hinv.
  { split.
    - replace (feature_key <$> dev_features)
        with (derived_feature_id <$> dev_features); [done|].
      apply list_fmap_ext. intros i g Hg. symmetry.
      by apply Hfkey, list_elem_of_lookup_2 with i.
    - exact Hrnd.
    - intros g Hg. rewrite (Hfkey g Hg).
      by apply owns_sorts_under, Hfo.
    - intros r Hr. destruct (Hro r Hr) as [k Hk]. exists k.
      by apply owns_sorts_under. }
  destruct (converted_join_complete _ _ _ Hdict Hinv)
    as (st & _ & _ & Hjoin & Hperm & _ & _ & Hstrict & Hf & Hr & Hfs & Hrs).
  exists (eval_examples st). split.
  { rewrite join_records_in_range by done. by apply Hjoin. }
  split; [done|]. split; [by apply Hstrict|].
  split; [|split; [|split]].
  - intros e g He Hg. rewrite <- (Hfkey g Hg).
    rewrite <- (owns_sorts_under _ _ _ Hrange). by apply Hf.
  - intros e r He Hr'.
    rewrite <- (owns_sorts_under _ _ _ Hrange). by apply Hr.
  - intros e u g He Hg. destruct (Hfs e u g He Hg) as [Hin ->].
    split; [done|]. by apply Hfkey.
  - exact Hrs.
Qed.

(** *** The aggregates of an arbitrary join *)

Lemma fmap_update_last {A B} (f : A → B) (g : A → A) (l : list A) :
  (∀ x, f (g x) = f x) → f <$> update_last g l = f <$> l.
Proof.
  intros Hfg. unfold update_last. generalize (pred (length l)) as i.
  induction l as [|x l IH]; intros [|i]; csimpl; f_equal; auto.
Qed.

Lemma merge_step_items (st st' : JoinState T) (entry : Z * Datum T) w :
  merge_step st entry = (w, Ok st') →
  item_of <$> eval_examples st'
  = (item_of <$> eval_examples st) ++ omap example_item [entry].
Proof.
  destruct entry as [key [[k cands]|g|r]]; simpl.
  - intros [= _ <-]. simpl. by rewrite fmap_snoc.
  - destruct (last (eval_examples st)) as [current|].
    + case_decide; [|done]. intros [= _ <-]. simpl.
      by rewrite fmap_update_last, app_nil_r.
    + intros [= _ <-]. simpl. by rewrite app_nil_r.
  - destruct (last (eval_examples st)) as [current|].
    + intros [= _ <-]. simpl. by rewrite fmap_update_last, app_nil_r.
    + intros [= _ <-]. simpl. by rewrite app_nil_r.
Qed.

Lemma merge_loop_items (l : list (Z * Datum T)) (st st' : JoinState T) w :
  merge_loop l st = (w, Ok st') →
  item_of <$> eval_examples st'
  = (item_of <$> eval_examples st) ++ omap example_item l.
Proof.
  revert st w. induction l as [|entry l IH]; intros st w.
  - intros [= _ <-]. by rewrite app_nil_r.
  - rewrite merge_loop_cons.
    intros (w1 & st1 & w2 & Hstep & Hrest & _)%bind_ok.
    rewrite (IH _ _ Hrest), (merge_step_items _ _ _ _ Hstep).
    rewrite <- app_assoc. f_equal.
    by rewrite <- omap_app.
Qed.

(** Whatever the records are, a join that ends builds exactly one
    aggregate per key of [candidates_dict]. *)
Lemma join_records_items
    (candidates_dict : list (Z * list Candidate))
    (dev_features : list Feature) (raw_results : list (RawResult T))
    w (eval_examples : list (EvalExample T)) :
  join_records candidates_dict dev_features raw_results
  = (w, Ok eval_examples) →
  item_of <$> eval_examples ≡ₚ candidates_dict.
Proof.
  intros Hjoin%join_records_converted. revert Hjoin.
  unfold join_converted, join_loop.
  destruct (keyed_examples candidates_dict); [done|].
  intros (w1 & st & w2 & Hrun & Hrest & _)%bind_ok.
  apply bind_ok in Hrest as (w3 & [] & w4 & _ & [= _ <-] & _).
  rewrite (merge_loop_items _ _ _ _ Hrun). simpl.
  apply merged_example_items.
Qed.

(** C9: the mapping built by the reduction does not depend on the order
    in which the outcomes of the tasks arrive, as long as the ids of the
    aggregates are distinct; this holds for the aggregates of every join,
    so [compute_pred_dict] returns the same mapping under every schedule
    of the pool as under the sequential one (and raises under every
    schedule if it raises under one). *)
Theorem reduction_order_insensitive :
  (∀ (eval_examples arrival_order : list (EvalExample T))
     (candidate_beam max_answer_length : Z),
      NoDup (example_id <$> eval_examples) →
      arrival_order ≡ₚ eval_examples →
      output_mapping (reduce_examples language_name_of arrival_order
                        candidate_beam max_answer_length)
      = output_mapping (reduce_examples language_name_of eval_examples
                          candidate_beam max_answer_length))
  ∧ (∀ (schedule : list (EvalExample T) → list (EvalExample T))
       (candidates_dict : list (Z * list Candidate))
       (dev_features : list Feature) (raw_results : list (RawResult T))
       (candidate_beam max_answer_length : Z),
        NoDup candidates_dict.*1 →
        (∀ l, schedule l ≡ₚ l) →
        output_mapping (compute_pred_dict language_name_of schedule
                          candidates_dict dev_features raw_results
                          candidate_beam max_answer_length)
        = output_mapping (compute_pred_dict language_name_of id
                            candidates_dict dev_features raw_results
                            candidate_beam max_answer_length)).
Proof.
  split; [apply reduce_examples_perm|].
  intros schedule candidates_dict dev_features raw_results candidate_beam
    max_answer_length Hdict Hsched.
  unfold compute_pred_dict.
  destruct (join_records candidates_dict dev_features raw_results)
    as [w [evs|e]] eqn:Hjoin; [|done].
  apply join_records_items in Hjoin.
  assert (NoDup (example_id <$> evs)) as Hnd.
  { assert (example_id <$> evs = (item_of <$> evs).*1) as ->
      by by rewrite <- list_fmap_compose.
    by rewrite Hjoin. }
  destruct evs as [|e evs]; [done|].
  unfold output_mapping. simpl.
  apply (reduce_examples_perm _ _ candidate_beam max_answer_length Hnd
           (Hsched _)).
Qed.

End Properties.

(** * Scenarios over integer scores *)

(** The scenarios are run with NumPy 2, unless stated otherwise; their
    ids are in the 32-bit range, where every NumPy agrees. *)
#[global] Existing Instance numpy_2.


(** A language table for the scenarios. *)
Definition sample_languages (language_id : Z) : option string :=
  if decide (language_id = 0) then Some "english"%string else None.

Definition candidate (start_byte end_byte : Z) : Candidate :=
  {| plaintext_start_byte := start_byte; plaintext_end_byte := end_byte |}.

(** ** The end-to-end scenario of the specification *)

Definition scenario_feature : Feature :=
  {| unique_ids := 0; example_index := 0;
     wp_start_offset := [-1; 0; 5; -1];
     wp_end_offset := [-1; 4; 9; -1];
     language_id := [0] |}.

Definition scenario_result : RawResult Z :=
  {| unique_id := 0;
     start_logits := [5; 1; 9; 2];
     end_logits := [5; 0; 1; 8];
     answer_type_logits := [] |}.

Definition scenario_example : EvalExample Z :=
  {| example_id := 0;
     candidates := [candidate 0 10];
     results := [(1, scenario_result)];
     features := {[ 1 := scenario_feature ]} |}.

Definition scenario_label : PredictedLabel Z :=
  {| label_example_id := 0;
     language := "english";
     passage_answer_index := 0;
     passage_answer_score := 0;
     minimal_answer := {| start_byte_offset := 5; end_byte_offset := 10 |};
     minimal_answer_score := 0;
     yes_no_answer := "NONE" |}.

Definition scenario_summary : ScoreSummary Z :=
  {| predicted_label := Some scenario_label;
     minimal_span_score := Some 10;
     cls_token_score := Some 10;
     summary_answer_type_logits := Some [] |}.

Lemma scenario_run :
  compute_predictions sample_languages scenario_example 2 10
  = ([], Ok (Some scenario_summary)).
Proof. vm_compute. reflexivity. Qed.

(** C2 (as the code has it): in the scenario the beams are [2; 3] for the
    start and [3; 2] for the end; the pairs (2,3) and (3,3) meet the
    sentinel, (3,2) is out of order, so the only entry of [predictions],
    and the winner, is the token pair (2,2); its byte span is (5,10) and
    the passage index is 0.  The ids, the language and the answer-type
    logits, which the scenario leaves open, are arbitrary. *)
Theorem end_to_end_scenario
    (language_name_of : Z → option string) (name : string)
    (key eid lid fu fe ru : Z) (more_ids : list Z) (atl : list Z) :
  language_name_of lid = Some name →
  let feature :=
    {| unique_ids := fu; example_index := fe;
       wp_start_offset := [-1; 0; 5; -1];
       wp_end_offset := [-1; 4; 9; -1];
       language_id := lid :: more_ids |} in
  let result :=
    {| unique_id := ru;
       start_logits := [5; 1; 9; 2];
       end_logits := [5; 0; 1; 8];
       answer_type_logits := atl |} in
  let eval_example :=
    {| example_id := eid;
       candidates := [candidate 0 10];
       results := [(key, result)];
       features := {[ key := feature ]} |} in
  get_best_indexes (start_logits result) 2 = [2; 3]%nat
  ∧ get_best_indexes (end_logits result) 2 = [3; 2]%nat
  ∧ ∃ best summary label,
      winning_prediction language_name_of eval_example 2 10 = Some best
      ∧ p_start_index best = 2%nat
      ∧ p_end_index best = 2%nat
      ∧ compute_predictions language_name_of eval_example 2 10
        = ([], Ok (Some summary))
      ∧ predicted_label summary = Some label
      ∧ minimal_answer label
        = {| start_byte_offset := 5; end_byte_offset := 10 |}
      ∧ passage_answer_index label = 0%nat.
Proof.
  intros Hlang feature result eval_example.
  split; [reflexivity|]. split; [reflexivity|].
  assert (Hcollect :
    collect_predictions language_name_of eval_example 2 10
    = ([], Ok (Some
         [ {| p_score := 0;
              p_summary := new_summary 10 10 result;
              p_language := name;
              p_start_offset := 5; p_end_offset := 10;
              p_start_index := 2; p_end_index := 2 |} ]))).
  { unfold collect_predictions. simpl results. cbv iota.
    rewrite decide_False
      by (simpl; rewrite map_size_singleton; intros Hne; by apply Hne).
    unfold results_loop. simpl features.
    rewrite lookup_singleton_eq. simpl language_id.
    rewrite py_index_bind.
    change ((lid :: more_ids) !! 0%nat) with (Some lid). cbv beta iota.
    unfold lookup_language. rewrite Hlang, bind_ret_l.
    reflexivity. }
  eexists _, _, _.
  split; [unfold winning_prediction; rewrite Hcollect; reflexivity|].
  split; [reflexivity|]. split; [reflexivity|].
  split; [unfold compute_predictions; rewrite Hcollect; reflexivity|].
  split; [reflexivity|]. split; reflexivity.
Qed.

Lemma end_to_end_scenario_witness :
  sample_languages 0 = Some "english"%string
  ∧ ∃ best,
      winning_prediction sample_languages scenario_example 2 10 = Some best
      ∧ p_start_index best = 2%nat ∧ p_end_index best = 2%nat.
Proof.
  split; [reflexivity|].
  destruct (end_to_end_scenario sample_languages "english" 1 0 0 0 0 0 [] []
              eq_refl)
    as (_ & _ & best & summary & label & Hwin & Hs & He & _).
  exists best. split; [exact Hwin|]. split; [exact Hs|exact He].
Defined.

(** The token pair named by the specification, (2,3), is not the winner:
    position 3 of [wp_end_offset] holds the sentinel. *)
Lemma end_to_end_scenario_not_2_3 :
  wp_end_offset scenario_feature !! 3%nat = Some (-1)
  ∧ ¬ ∃ best,
        winning_prediction sample_languages scenario_example 2 10 = Some best
        ∧ p_start_index best = 2%nat ∧ p_end_index best = 3%nat.
Proof.
  split; [reflexivity|].
  intros (best & Hwin & _ & Hend).
  vm_compute in Hwin. injection Hwin as <-. discriminate Hend.
Qed.

(** ** Witnesses and counterexamples of the scorer *)

Lemma returned_span_valid_witness :
  compute_predictions sample_languages scenario_example 2 10
  = ([], Ok (Some scenario_summary))
  ∧ ∃ label best,
      predicted_label scenario_summary = Some label
      ∧ winning_prediction sample_languages scenario_example 2 10 = Some best
      ∧ start_byte_offset (minimal_answer label) ≠ -1
      ∧ end_byte_offset (minimal_answer label) - 1 ≠ -1
      ∧ (p_start_index best ≤ p_end_index best)%nat
      ∧ Z.of_nat (p_end_index best) - Z.of_nat (p_start_index best) + 1 ≤ 10.
Proof.
  split; [exact scenario_run|].
  destruct (returned_span_valid sample_languages scenario_example 2 10 []
              scenario_summary scenario_run)
    as (label & best & uid & result & feature & Hl & Hw & _ & _ & _ & _ & _
        & Hs & _ & He & Hord & Hlen & _).
  exists label, best. repeat (split; [assumption|]). assumption.
Defined.

(** Token 1 covers bytes 7..9 and token 2 covers bytes 0..3: the scorer
    accepts the token pair (1,2) and returns the byte span (7,4). *)
Definition disordered_example : EvalExample Z :=
  {| example_id := 0;
     candidates := [candidate 0 10];
     results := [(1, {| unique_id := 0;
                        start_logits := [0; 5; 1];
                        end_logits := [0; 1; 5];
                        answer_type_logits := [] |})];
     features := {[ 1 := {| unique_ids := 0; example_index := 0;
                            wp_start_offset := [-1; 7; 0];
                            wp_end_offset := [-1; 9; 3];
                            language_id := [0] |} ]} |}.

Lemma returned_span_disordered :
  ∃ summary label,
    compute_predictions sample_languages disordered_example 1 10
    = ([], Ok (Some summary))
    ∧ predicted_label summary = Some label
    ∧ minimal_answer label
      = {| start_byte_offset := 7; end_byte_offset := 4 |}
    ∧ end_byte_offset (minimal_answer label)
      < start_byte_offset (minimal_answer label).
Proof.
  eexists _, _. split; [vm_compute; reflexivity|].
  split; [reflexivity|]. split; [reflexivity|]. simpl. lia.
Qed.

(** Candidates [(0,10); (10,25)] around the span (12,20). *)
Definition passage_example : EvalExample Z :=
  {| example_id := 1;
     candidates := [candidate 0 10; candidate 10 25];
     results := [(2, {| unique_id := 1;
                        start_logits := [0; 1];
                        end_logits := [0; 1];
                        answer_type_logits := [] |})];
     features := {[ 2 := {| unique_ids := 1; example_index := 1;
                            wp_start_offset := [-1; 12];
                            wp_end_offset := [-1; 19];
                            language_id := [0] |} ]} |}.

Definition passage_summary : ScoreSummary Z :=
  {| predicted_label :=
       Some {| label_example_id := 1;
               language := "english";
               passage_answer_index := 1;
               passage_answer_score := 2;
               minimal_answer :=
                 {| start_byte_offset := 12; end_byte_offset := 20 |};
               minimal_answer_score := 2;
               yes_no_answer := "NONE" |};
     minimal_span_score := Some 2;
     cls_token_score := Some 0;
     summary_answer_type_logits := Some [] |}.

Lemma passage_run :
  compute_predictions sample_languages passage_example 1 5
  = ([], Ok (Some passage_summary)).
Proof. vm_compute. reflexivity. Qed.

Lemma passage_resolution_witness :
  compute_predictions sample_languages passage_example 1 5
  = ([], Ok (Some passage_summary))
  ∧ ∃ label,
      predicted_label passage_summary = Some label
      ∧ resolve_passage passage_example (minimal_answer label)
        = ([], Ok (passage_answer_index label)).
Proof.
  split; [exact passage_run|].
  destruct (proj1 (passage_resolution sample_languages) passage_example 1 5
              [] passage_summary passage_run)
    as (label & Hl & Hres & _).
  exists label. split; [exact Hl|exact Hres].
Defined.

Definition no_results_example : EvalExample Z :=
  {| example_id := 3; candidates := [candidate 0 10];
     results := []; features := ∅ |}.

Definition mismatch_example : EvalExample Z :=
  {| example_id := 4; candidates := [candidate 0 10];
     results := [(5, scenario_result)]; features := ∅ |}.

Lemma scorer_early_exits_witness :
  results mismatch_example ≠ []
  ∧ size (features mismatch_example) ≠ length (results mismatch_example)
  ∧ compute_predictions sample_languages mismatch_example 2 10
    = ([WarnCountMismatch 0 1 4], Ok None).
Proof.
  assert (results mismatch_example ≠ []) as Hne by discriminate.
  assert (size (features mismatch_example)
          ≠ length (results mismatch_example)) as Hsize by discriminate.
  split; [exact Hne|]. split; [exact Hsize|].
  exact (proj2 (scorer_early_exits sample_languages mismatch_example 2 10)
           Hne Hsize).
Defined.

(** Without results the scorer returns [None] and the log stays empty. *)
Lemma no_warning_without_results :
  results no_results_example = []
  ∧ outcome_of (compute_predictions sample_languages no_results_example 2 10)
    = Ok None
  ∧ ¬ ∃ w, w ∈ log_of (compute_predictions sample_languages
                         no_results_example 2 10).
Proof.
  split; [reflexivity|]. split; [reflexivity|].
  intros [w Hw]. vm_compute in Hw. by apply elem_of_nil in Hw.
Qed.

(** Scores with an incomparable value, as the floats of the source have
    one: every comparison with [NaN] is false, and [NaN] propagates
    through the arithmetic.  The finite values are taken as integers. *)
Inductive nan_score :=
| Finite (z : Z)
| NaN.

#[global] Instance nan_score_ops : Score nan_score :=
  {| score_add a b :=
       match a, b with Finite x, Finite y => Finite (x + y) | _, _ => NaN end;
     score_sub a b :=
       match a, b with Finite x, Finite y => Finite (x - y) | _, _ => NaN end;
     score_ltb a b :=
       match a, b with Finite x, Finite y => x <? y | _, _ => false end |}.




(** ** Witnesses and counterexamples of the join *)

Definition plain_feature (uid owner : Z) : Feature :=
  {| unique_ids := uid; example_index := owner;
     wp_start_offset := [-1; 0]; wp_end_offset := [-1; 3];
     language_id := [0] |}.

Definition plain_result (uid : Z) : RawResult Z :=
  {| unique_id := uid; start_logits := [0; 1]; end_logits := [0; 1];
     answer_type_logits := [] |}.

Lemma record_before_example_skipped_witness :
  eval_examples (join_start (T:=Z)) = []
  ∧ is_example (DFeature (T:=Z) (plain_feature 3 3)) = false
  ∧ merge_step join_start (4, DFeature (T:=Z) (plain_feature 3 3))
    = ([WarnNoExample],
       Ok (failed_match (count_feature join_start))).
Proof.
  split; [reflexivity|]. split; [reflexivity|].
  exact (proj1 (record_before_example_skipped join_start 4
                  (DFeature (plain_feature 3 3)) [] eq_refl eq_refl)).
Defined.

Definition two_examples : list (Z * list Candidate) :=
  [(5, [candidate 0 10]); (9, [candidate 0 20])].

Definition state_at_9 : JoinState Z :=
  with_examples join_start [new_example 9 [candidate 0 20]].

Lemma join_integrity_check_witness :
  last (eval_examples state_at_9) = Some (new_example 9 [candidate 0 20])
  ∧ example_id (new_example (T:=Z) 9 [candidate 0 20])
    ≠ example_index (plain_feature 8 5)
  ∧ merge_loop [(9, DFeature (plain_feature 8 5));
                (9, DResult (plain_result 8))] state_at_9
    = ([], Raise (KeyError "unique id")).
Proof.
  assert (example_id (new_example (T:=Z) 9 [candidate 0 20])
          ≠ example_index (plain_feature 8 5)) as Hne by discriminate.
  split; [reflexivity|]. split; [exact Hne|].
  exact (proj1 (join_integrity_check state_at_9
                  (new_example 9 [candidate 0 20]) 9
                  [(9, DResult (plain_result 8))] eq_refl)
           (plain_feature 8 5) Hne).
Defined.

(** The result with the derived id 9 is stored in the aggregate of
    example 9, which cannot own it (the id does not sort strictly after
    9), and the join ends normally; the feature with the same derived id,
    recorded as owned by example 5, stops the join. *)
Lemma result_joined_unchecked :
  join_records two_examples [] [plain_result 8]
  = ([], Ok [ new_example 5 [candidate 0 10];
              set_result 9 (plain_result 8)
                (new_example 9 [candidate 0 20]) ])
  ∧ ¬ owns two_examples 9 (result_key (plain_result 8))
  ∧ join_records (T:=Z) two_examples [plain_feature 8 5] []
    = ([], Raise (KeyError "unique id")).
Proof.
  split; [vm_compute; reflexivity|]. split; [|vm_compute; reflexivity].
  intros (_ & Hlt & _). vm_compute in Hlt. discriminate Hlt.
Qed.

Definition two_features : list Feature :=
  [plain_feature 9 9; plain_feature 5 5].

Definition two_results : list (RawResult Z) :=
  [plain_result 5; plain_result 9].

Lemma sorts_under_5 : sorts_under two_examples 5 6.
Proof.
  split; [apply list_elem_of_here|]. split; [done|].
  intros k' [->|[->|Hk]%elem_of_cons]%elem_of_cons Hne; [done| |].
  - by right.
  - by apply elem_of_nil in Hk.
Qed.

Lemma sorts_under_9 : sorts_under two_examples 9 10.
Proof.
  split; [apply list_elem_of_further, list_elem_of_here|].
  split; [done|].
  intros k' [->|[->|Hk]%elem_of_cons]%elem_of_cons Hne; [|done|].
  - by left.
  - by apply elem_of_nil in Hk.
Qed.

Lemma two_examples_sorted :
  sorts_after_owner two_examples two_features two_results.
Proof.
  split.
  - intros g [->|[->|Hg]%elem_of_cons]%elem_of_cons.
    + exact sorts_under_9.
    + exact sorts_under_5.
    + by apply elem_of_nil in Hg.
  - intros r [->|[->|Hr]%elem_of_cons]%elem_of_cons.
    + exists 5. exact sorts_under_5.
    + exists 9. exact sorts_under_9.
    + by apply elem_of_nil in Hr.
Qed.

Lemma two_examples_distinct :
  NoDup (derived_feature_id <$> two_features)
  ∧ NoDup (derived_result_id <$> two_results).
Proof.
  split; simpl; (apply NoDup_cons; split; [|apply NoDup_singleton]);
    intros Hin; apply list_elem_of_singleton in Hin; discriminate Hin.
Qed.

Lemma two_examples_in_range :
  Forall in_int32 two_examples.*1
  ∧ Forall in_int32 (derived_feature_id <$> two_features).
Proof.
  split; simpl; repeat (apply Forall_cons; split; [by vm_compute|]);
    by apply Forall_nil.
Qed.

Lemma two_examples_keys : NoDup two_examples.*1.
Proof.
  simpl. apply NoDup_cons. split; [|apply NoDup_singleton].
  intros Hin. apply list_elem_of_singleton in Hin. discriminate Hin.
Qed.

Lemma merge_join_complete_witness :
  NoDup two_examples.*1
  ∧ two_examples ≠ []
  ∧ Forall in_int32 two_examples.*1
  ∧ Forall in_int32 (derived_feature_id <$> two_features)
  ∧ NoDup (derived_feature_id <$> two_features)
  ∧ NoDup (derived_result_id <$> two_results)
  ∧ sorts_after_owner two_examples two_features two_results
  ∧ ∃ aggregates,
      join_records two_examples two_features two_results
      = ([], Ok aggregates)
      ∧ StronglySorted Z.lt (example_id <$> aggregates)
      ∧ ∀ e g, e ∈ aggregates → g ∈ two_features →
               (features e !! derived_feature_id g = Some g
                ↔ sorts_under two_examples (example_id e)
                    (derived_feature_id g)).
Proof.
  assert (two_examples ≠ []) as Hne by discriminate.
  split; [exact two_examples_keys|]. split; [exact Hne|].
  split; [exact (proj1 two_examples_in_range)|].
  split; [exact (proj2 two_examples_in_range)|].
  split; [exact (proj1 two_examples_distinct)|].
  split; [exact (proj2 two_examples_distinct)|].
  split; [exact two_examples_sorted|].
  destruct (merge_join_complete two_examples two_features two_results
              two_examples_keys Hne (proj1 two_examples_in_range)
              (proj2 two_examples_in_range) (proj1 two_examples_distinct)
              (proj2 two_examples_distinct) two_examples_sorted)
    as (aggregates & Hjoin & _ & Hsorted & Hfeat & _).
  exists aggregates. split; [exact Hjoin|]. split; [exact Hsorted|exact Hfeat].
Defined.

(** The claim as it is worded, with the invariant alone, does not hold.
    Two features with the same derived id 6 both sort under example 5,
    and the second replaces the first in the aggregate.  The example ids
    2147483648 and 5 satisfy the invariant; NumPy 1.x converts the first
    to -2147483648, so that its aggregate comes first, NumPy 2 raises
    [OverflowError]. *)
Definition twin_feature : Feature :=
  {| unique_ids := 5; example_index := 5;
     wp_start_offset := [-1; 7]; wp_end_offset := [-1; 9];
     language_id := [0] |}.

Definition big_examples : list (Z * list Candidate) :=
  [(2147483648, [candidate 0 10]); (5, [candidate 0 20])].

Lemma merge_join_needs_range_and_distinct_ids :
  sorts_after_owner (T:=Z) [(5, [candidate 0 10])]
    [plain_feature 5 5; twin_feature] []
  ∧ plain_feature 5 5 ≠ twin_feature
  ∧ join_records (T:=Z) [(5, [candidate 0 10])]
      [plain_feature 5 5; twin_feature] []
    = ([], Ok [set_feature 6 twin_feature
                 (new_example 5 [candidate 0 10])])
  ∧ sorts_after_owner (T:=Z) big_examples [] []
  ∧ @join_records Z numpy_1 big_examples [] []
    = ([], Ok [new_example 2147483648 [candidate 0 10];
               new_example 5 [candidate 0 20]])
  ∧ @join_records Z numpy_2 big_examples [] []
    = ([], Raise OverflowError).
Proof.
  split.
  { split.
    - intros g Hg.
      assert (example_index g = 5 ∧ derived_feature_id g = 6) as [-> ->].
      { repeat (apply elem_of_cons in Hg as [->|Hg]; [done|]).
        by apply elem_of_nil in Hg. }
      split; [apply list_elem_of_here|]. split; [done|].
      intros k' [->|Hk]%elem_of_cons Hne; [done|].
      by apply elem_of_nil in Hk.
    - by intros r ?%elem_of_nil. }
  split; [discriminate|]. split; [vm_compute; reflexivity|].
  split.
  { split; [by intros g ?%elem_of_nil|by intros r ?%elem_of_nil]. }
  split; vm_compute; reflexivity.
Qed.

Lemma reduction_order_insensitive_witness :
  NoDup (example_id <$> [scenario_example; passage_example])
  ∧ [passage_example; scenario_example]
    ≡ₚ [scenario_example; passage_example]
  ∧ NoDup two_examples.*1
  ∧ (∀ l : list (EvalExample Z), reverse l ≡ₚ l)
  ∧ output_mapping (reduce_examples sample_languages
                      [passage_example; scenario_example] 2 10)
    = output_mapping (reduce_examples sample_languages
                        [scenario_example; passage_example] 2 10)
  ∧ output_mapping (compute_pred_dict sample_languages reverse
                      two_examples two_features two_results 1 10)
    = output_mapping (compute_pred_dict sample_languages id
                        two_examples two_features two_results 1 10).
Proof.
  assert (NoDup (example_id <$> [scenario_example; passage_example])) as Hnd.
  { simpl. apply NoDup_cons. split.
    - intros Hin. apply list_elem_of_singleton in Hin. discriminate Hin.
    - apply NoDup_singleton. }
  assert ([passage_example; scenario_example]
          ≡ₚ [scenario_example; passage_example]) as Hperm
    by apply Permutation_swap.
  assert (∀ l : list (EvalExample Z), reverse l ≡ₚ l) as Hrev
    by apply reverse_Permutation.
  split; [exact Hnd|]. split; [exact Hperm|].
  split; [exact two_examples_keys|]. split; [exact Hrev|]. split.
  - exact (proj1 (reduction_order_insensitive sample_languages)
             _ _ 2 10 Hnd Hperm).
  - exact (proj2 (reduction_order_insensitive sample_languages)
             reverse two_examples two_features two_results 1 10
             two_examples_keys Hrev).
Defined.

(** * The CANINE tokenizer ([src/canine/tokenizer.py])

    A Python string is the list of its code points; a token is a string.
    The attributes [cls_token_id] and [sep_token_id] and the mask of
    the base class come from [PretrainedTokenizer], which is not part of
    these sources: they are parameters. *)

Module Canine.

Definition py_str : Type := list Z.

Definition UNICODE_VOCAB_SIZE : Z := 1114112.

Definition PAD : Z := 0.
Definition CLS : Z := 57344.
Definition SEP : Z := 57345.
Definition BOS : Z := 57346.
Definition MASK : Z := 57347.
Definition RESERVED : Z := 57348.

(** The characters of a Python string are code points of Unicode. *)
Definition codepoint (c : Z) : Prop := 0 ≤ c < UNICODE_VOCAB_SIZE.

(** An ASCII literal of the source as a Python string. *)
Definition literal (s : string) : py_str :=
  (λ a, Z.of_N (Ascii.N_of_ascii a)) <$> String.list_ascii_of_string s.

Definition SPECIAL_CODEPOINTS : list (Z * py_str) :=
  [ (CLS, literal "[CLS]"); (SEP, literal "[SEP]"); (BOS, literal "[BOS]");
    (MASK, literal "[MASK]"); (PAD, literal "[PAD]");
    (RESERVED, literal "[RESERVED]") ].

(** [{name: codepoint for codepoint, name in SPECIAL_CODEPOINTS.items()}]. *)
Definition SPECIAL_CODEPOINTS_BY_NAME : list (py_str * Z) :=
  (λ item, (item.2, item.1)) <$> SPECIAL_CODEPOINTS.

(** [SPECIAL_CODEPOINTS[index]], [None] when [index] is not a key. *)
Fixpoint lookup_codepoint (table : list (Z * py_str)) (index : Z)
  : option py_str :=
  match table with
  | [] => None
  | (c, name) :: rest =>
      if decide (c = index) then Some name else lookup_codepoint rest index
  end.

(** The ways the conversions fail: the [ValueError] raised for a token
    [ord] refuses, and the two errors of [chr], which [except TypeError]
    does not catch: [ValueError] for an integer outside [range(0x110000)]
    that fits a C int (32 bits), [OverflowError] for an integer that does
    not fit a C int. *)
Inductive error :=
| InvalidToken (token : py_str)
| ChrValueError (index : Z)
| ChrOverflowError (index : Z).

(** [ord(token)]; [None] is its [TypeError] (not one character). *)
Definition ord (token : py_str) : option Z :=
  match token with
  | [c] => Some c
  | _ => None
  end.

(** [chr(index)]. *)
Definition chr (index : Z) : error + py_str :=
  if decide (0 ≤ index < 1114112) then inr [index]
  else if decide (- 2 ^ 31 ≤ index < 2 ^ 31) then inl (ChrValueError index)
  else inl (ChrOverflowError index).

Definition vocab_size : Z := UNICODE_VOCAB_SIZE.

Definition _tokenize (text : py_str) : list py_str := (λ c, [c]) <$> text.

Definition _convert_token_to_id (token : py_str) : error + Z :=
  match ord token with
  | Some index => inr index
  | None => inl (InvalidToken token)
  end.

Definition _convert_id_to_token (index : Z) : error + py_str :=
  match lookup_codepoint SPECIAL_CODEPOINTS index with
  | Some name => inr name
  | None => chr index
  end.

Definition convert_tokens_to_string (tokens : list py_str) : py_str :=
  concat tokens.

Definition tokenize (text : py_str) : list py_str := _tokenize text.

Section SpecialTokens.

Variables cls_token_id sep_token_id : Z.
Variable super_get_special_tokens_mask : list Z → option (list Z) → list Z.

Definition build_inputs_with_special_tokens (token_ids_0 : list Z)
    (token_ids_1 : option (list Z)) : list Z :=
  let sep := [sep_token_id] in
  let cls := [cls_token_id] in
  match token_ids_1 with
  | None => cls ++ token_ids_0 ++ sep
  | Some token_ids_1 => cls ++ token_ids_0 ++ sep ++ token_ids_1 ++ sep
  end.

Definition get_special_tokens_mask (token_ids_0 : list Z)
    (token_ids_1 : option (list Z)) (already_has_special_tokens : bool)
  : list Z :=
  if already_has_special_tokens then
    super_get_special_tokens_mask token_ids_0 token_ids_1
  else
    match token_ids_1 with
    | None => [1] ++ replicate (length token_ids_0) 0 ++ [1]
    | Some token_ids_1 =>
        [1] ++ replicate (length token_ids_0) 0 ++ [1]
        ++ replicate (length token_ids_1) 0 ++ [1]
    end.

Definition create_token_type_ids_from_sequences (token_ids_0 : list Z)
    (token_ids_1 : option (list Z)) : list Z :=
  let sep := [sep_token_id] in
  let cls := [cls_token_id] in
  match token_ids_1 with
  | None => replicate (length (cls ++ token_ids_0 ++ sep)) 0
  | Some token_ids_1 =>
      replicate (length (cls ++ token_ids_0 ++ sep)) 0
      ++ replicate (length (token_ids_1 ++ sep)) 1
  end.

End SpecialTokens.

(** ** Properties of the tokenizer *)

(** The special code points. *)
Definition special (index : Z) : Prop :=
  index ∈ [CLS; SEP; BOS; MASK; PAD; RESERVED].

Lemma lookup_codepoint_special (index : Z) :
  special index ↔ is_Some (lookup_codepoint SPECIAL_CODEPOINTS index).
Proof.
  unfold special. split.
  - intros Hs.
    repeat (apply elem_of_cons in Hs as [->|Hs]; [by eexists|]).
    by apply elem_of_nil in Hs.
  - unfold SPECIAL_CODEPOINTS. simpl. intros Hs.
    repeat (destruct (decide (_ = index)) as [<-|_];
            [repeat (first [apply list_elem_of_here
                           |apply list_elem_of_further])|]).
    by destruct Hs.
Qed.

(** X1.  Splitting a text into tokens loses nothing: there is one token of one
    character per character, and joining the tokens gives the text
    back. *)
Theorem tokenize_round_trip (text : py_str) :
  convert_tokens_to_string (tokenize text) = text
  ∧ length (tokenize text) = length text
  ∧ Forall (λ token, length token = 1%nat) (tokenize text).
Proof.
  unfold convert_tokens_to_string, tokenize, _tokenize.
  split; [|split].
  - induction text as [|c text IH]; [done|]. csimpl. by rewrite IH.
  - by rewrite length_fmap.
  - apply Forall_fmap, Forall_true. done.
Qed.

(** X2.  Every token [tokenize] produces converts to an id, never to the
    [ValueError]; the ids are the code points of the text, in order. *)
Theorem tokens_convert_to_codepoints (text : py_str) :
  _convert_token_to_id <$> tokenize text = inr <$> text.
Proof.
  unfold tokenize, _tokenize. rewrite <- list_fmap_compose.
  by apply list_fmap_ext.
Qed.

(** X3.  An id has a token exactly when it is below [vocab_size] and not
    negative; outside this range the error of [chr] escapes: its
    [ValueError] when the id fits a C int, its [OverflowError]
    otherwise. *)
Theorem id_has_token_iff_in_vocab (index : Z) :
  ((∃ token, _convert_id_to_token index = inr token)
   ↔ 0 ≤ index < vocab_size)
  ∧ (¬ 0 ≤ index < vocab_size → - 2 ^ 31 ≤ index < 2 ^ 31 →
     _convert_id_to_token index = inl (ChrValueError index))
  ∧ (¬ - 2 ^ 31 ≤ index < 2 ^ 31 →
     _convert_id_to_token index = inl (ChrOverflowError index)).
Proof.
  unfold _convert_id_to_token, chr, vocab_size, UNICODE_VOCAB_SIZE.
  destruct (lookup_codepoint SPECIAL_CODEPOINTS index) as [name|] eqn:E.
  - assert (special index) as Hs
      by (apply lookup_codepoint_special; by eexists).
    assert (0 ≤ index < 1114112) as Hrange.
    { unfold special in Hs. repeat (rewrite elem_of_cons in Hs).
      rewrite elem_of_nil in Hs.
      unfold CLS, SEP, BOS, MASK, PAD, RESERVED in Hs. lia. }
    split; [|split].
    + split; [done|]. by eexists.
    + done.
    + intros Hout. exfalso. apply Hout. lia.
  - case_decide as Hrange.
    + split; [|split].
      * split; [done|]. by eexists.
      * done.
      * intros Hout. exfalso. apply Hout. lia.
    + case_decide as Hint.
      * split; [|split]; [|done..].
        split; [|done]. by intros [token [=]].
      * split; [|split]; [|done..].
        split; [|done]. by intros [token [=]].
Qed.

(** X4.  Away from the special code points the two conversions are inverse to
    each other: an id of the vocabulary becomes the one-character token of
    that code point, which converts back to the id. *)
Theorem plain_id_round_trip (index : Z) :
  codepoint index → ¬ special index →
  _convert_id_to_token index = inr [index]
  ∧ _convert_token_to_id [index] = inr index.
Proof.
  intros Hrange Hplain. split; [|done].
  unfold _convert_id_to_token, chr.
  destruct (lookup_codepoint SPECIAL_CODEPOINTS index) as [name|] eqn:E.
  - exfalso. apply Hplain, lookup_codepoint_special. by eexists.
  - unfold codepoint, UNICODE_VOCAB_SIZE in Hrange. by rewrite decide_True.
Qed.

(** X5.  Each of the six special code points converts to its bracketed
    name, not to a character, and the name does not convert back:
    [_convert_token_to_id] raises the [ValueError] for it. *)
Theorem special_id_no_round_trip (index : Z) (name : string) :
  (index, name) ∈ [ (57344, "[CLS]"); (57345, "[SEP]"); (57346, "[BOS]");
                    (57347, "[MASK]"); (0, "[PAD]");
                    (57348, "[RESERVED]") ]%string →
  _convert_id_to_token index = inr (literal name)
  ∧ literal name ≠ [index]
  ∧ _convert_token_to_id (literal name) = inl (InvalidToken (literal name)).
Proof.
  intros Hin.
  repeat (apply elem_of_cons in Hin as [[= -> ->]|Hin];
          [by repeat split|]).
  by apply elem_of_nil in Hin.
Qed.

(** The entries of [ids] at the positions where [mask] holds [keep]. *)
Fixpoint select (keep : Z) (ids mask : list Z) : list Z :=
  match ids, mask with
  | x :: ids', m :: mask' =>
      if decide (m = keep) then x :: select keep ids' mask'
      else select keep ids' mask'
  | _, _ => []
  end.

Lemma select_app keep ids1 ids2 mask1 mask2 :
  length ids1 = length mask1 →
  select keep (ids1 ++ ids2) (mask1 ++ mask2)
  = select keep ids1 mask1 ++ select keep ids2 mask2.
Proof.
  revert mask1. induction ids1 as [|x ids1 IH]; intros [|m mask1] Hlen;
    simpl in *; try done.
  case_decide; simpl; rewrite IH by lia; done.
Qed.

Lemma select_replicate_same keep ids :
  select keep ids (replicate (length ids) keep) = ids.
Proof.
  induction ids as [|x ids IH]; [done|]. simpl.
  rewrite decide_True by done. by rewrite IH.
Qed.

Lemma select_replicate_other keep other ids :
  other ≠ keep → select keep ids (replicate (length ids) other) = [].
Proof.
  intros Hne. induction ids as [|x ids IH]; [done|]. simpl.
  by rewrite decide_False.
Qed.

Section Layout.

Variables cls_token_id sep_token_id : Z.
Variable super_get_special_tokens_mask : list Z → option (list Z) → list Z.

Lemma replicate_succ_snoc {A} (n : nat) (x : A) :
  replicate (S n) x = replicate n x ++ [x].
Proof.
  replace (S n) with (n + 1)%nat by lia. by rewrite replicate_add.
Qed.

Lemma type_ids_pair (token_ids_0 ids1 : list Z) :
  create_token_type_ids_from_sequences cls_token_id sep_token_id
    token_ids_0 (Some ids1)
  = [0] ++ replicate (length token_ids_0) 0 ++ [0]
    ++ replicate (length ids1) 1 ++ [1].
Proof.
  unfold create_token_type_ids_from_sequences.
  replace (length ([cls_token_id] ++ token_ids_0 ++ [sep_token_id]))
    with (S (S (length token_ids_0)))
    by (rewrite !length_app; simpl; lia).
  replace (length (ids1 ++ [sep_token_id])) with (S (length ids1))
    by (rewrite length_app; simpl; lia).
  rewrite (replicate_succ_snoc (S (length token_ids_0))),
    (replicate_succ_snoc (length ids1) 1).
  simpl. by rewrite <- !app_assoc.
Qed.

Lemma type_ids_single (token_ids_0 : list Z) :
  create_token_type_ids_from_sequences cls_token_id sep_token_id
    token_ids_0 None
  = [0] ++ replicate (length token_ids_0) 0 ++ [0].
Proof.
  unfold create_token_type_ids_from_sequences.
  replace (length ([cls_token_id] ++ token_ids_0 ++ [sep_token_id]))
    with (S (S (length token_ids_0)))
    by (rewrite !length_app; simpl; lia).
  by rewrite (replicate_succ_snoc (S (length token_ids_0))).
Qed.

(** X6.  The three views of a model input agree.  The mask and the type ids
    have the length of the input; the mask marks with 1 exactly the added
    [cls] and [sep] and with 0 the given ids; type 0 covers [cls], the
    first sequence and its [sep], type 1 the second sequence and its
    [sep]. *)
Theorem special_tokens_layout (token_ids_0 : list Z)
    (token_ids_1 : option (list Z)) :
  let inputs :=
    build_inputs_with_special_tokens cls_token_id sep_token_id
      token_ids_0 token_ids_1 in
  let mask :=
    get_special_tokens_mask super_get_special_tokens_mask
      token_ids_0 token_ids_1 false in
  let types :=
    create_token_type_ids_from_sequences cls_token_id sep_token_id
      token_ids_0 token_ids_1 in
  length mask = length inputs
  ∧ length types = length inputs
  ∧ select 0 inputs mask = token_ids_0 ++ default [] token_ids_1
  ∧ select 1 inputs mask
    = cls_token_id :: sep_token_id
      :: (if token_ids_1 is Some _ then [sep_token_id] else [])
  ∧ select 0 inputs types = cls_token_id :: token_ids_0 ++ [sep_token_id]
  ∧ select 1 inputs types
    = match token_ids_1 with
      | Some ids1 => ids1 ++ [sep_token_id]
      | None => []
      end.
Proof.
  destruct token_ids_1 as [ids1|]; cbv zeta;
    [rewrite type_ids_pair|rewrite type_ids_single];
    unfold build_inputs_with_special_tokens, get_special_tokens_mask;
    (split; [by rewrite !length_app, !length_replicate|]);
    (split; [by rewrite !length_app, !length_replicate|]);
    repeat split;
    rewrite !select_app by (try done; by rewrite length_replicate);
    rewrite ?select_replicate_same;
    rewrite ?select_replicate_other by done;
    simpl; by rewrite ?app_nil_r.
Qed.

End Layout.

(** ** The conversions at concrete ids *)

Lemma id_has_token_iff_in_vocab_witness :
  ¬ 0 ≤ 1114112 < vocab_size
  ∧ _convert_id_to_token 1114112 = inl (ChrValueError 1114112)
  ∧ ¬ - 2 ^ 31 ≤ 2147483648 < 2 ^ 31
  ∧ _convert_id_to_token 2147483648 = inl (ChrOverflowError 2147483648).
Proof.
  assert (¬ 0 ≤ 1114112 < vocab_size) as Hout
    by (unfold vocab_size, UNICODE_VOCAB_SIZE; lia).
  assert (- 2 ^ 31 ≤ 1114112 < 2 ^ 31) as Hint by lia.
  assert (¬ - 2 ^ 31 ≤ 2147483648 < 2 ^ 31) as Hbig by lia.
  split; [exact Hout|]. split.
  { exact (proj1 (proj2 (id_has_token_iff_in_vocab 1114112)) Hout Hint). }
  split; [exact Hbig|].
  exact (proj2 (proj2 (id_has_token_iff_in_vocab 2147483648)) Hbig).
Defined.

Lemma plain_id_round_trip_witness :
  codepoint 65 ∧ ¬ special 65
  ∧ _convert_id_to_token 65 = inr [65]
  ∧ _convert_token_to_id [65] = inr 65.
Proof.
  assert (codepoint 65) as Hrange
    by (unfold codepoint, UNICODE_VOCAB_SIZE; lia).
  assert (¬ special 65) as Hplain.
  { unfold special. rewrite !elem_of_cons, elem_of_nil.
    unfold CLS, SEP, BOS, MASK, PAD, RESERVED. lia. }
  split; [exact Hrange|]. split; [exact Hplain|].
  exact (plain_id_round_trip 65 Hrange Hplain).
Defined.

Lemma special_id_no_round_trip_witness :
  _convert_id_to_token CLS = inr (literal "[CLS]")
  ∧ literal "[CLS]" ≠ [CLS]
  ∧ _convert_token_to_id (literal "[CLS]")
    = inl (InvalidToken (literal "[CLS]")).
Proof.
  exact (special_id_no_round_trip 57344 "[CLS]"
           (list_elem_of_here _ _)).
Defined.

End Canine.

(** * Further properties of the scorer *)

Section ScorerProperties.

Context {T : Type} `{Score T}.
Variable language_name_of : Z → option string.

Lemma get_best_indexes_bound (logits : list T) (n_best_size : Z) (i : nat) :
  i ∈ get_best_indexes logits n_best_size →
  (1 ≤ i < length logits)%nat ∧ 0 < n_best_size.
Proof.
  rewrite get_best_indexes_take.
  intros [[i' x] [-> Hin]]%list_elem_of_fmap. simpl.
  apply elem_of_take in Hin as (a & Ha & Hlt).
  apply list_elem_of_lookup_2, ranked_elem in Ha as [Hle Hx].
  apply lookup_lt_Some in Hx. lia.
Qed.

Lemma results_loop_matched eval_example n_best_size max_answer_length items
    predictions w out :
  results_loop language_name_of eval_example n_best_size max_answer_length
    items predictions = (w, Ok (Some out)) →
  ∀ uid result, (uid, result) ∈ items →
                is_Some (features eval_example !! uid).
Proof.
  revert predictions w out.
  induction items as [|[uid result] rest IH]; intros predictions w out.
  - by intros _ uid result ?%elem_of_nil.
  - simpl.
    destruct (features eval_example !! uid) as [feature|] eqn:Hf; [|done].
    rewrite py_index_bind.
    destruct (language_id feature !! 0%nat) as [lang_id|]; [|done].
    unfold lookup_language.
    destruct (language_name_of lang_id) as [lang|]; [|done].
    rewrite bind_ret_l, py_index_bind.
    destruct (start_logits result !! 0%nat) as [s0|]; [|done].
    rewrite py_index_bind.
    destruct (end_logits result !! 0%nat) as [e0|]; [|done].
    intros (w1 & mid & w2 & _ & Hrest & _)%bind_ok.
    intros uid' result' [[= -> ->]|Hin]%elem_of_cons.
    + by rewrite Hf.
    + by eapply IH.
Qed.

(** X7.  A returned prediction means a complete example: there are results, as
    many features as results, every result id has its feature; the only
    warning that can accompany a prediction is the one of the passage
    fallback. *)
Theorem prediction_needs_matched_example
    (eval_example : EvalExample T) (candidate_beam max_answer_length : Z)
    (w : list warning) (summary : ScoreSummary T) :
  compute_predictions language_name_of eval_example candidate_beam
    max_answer_length = (w, Ok (Some summary)) →
  results eval_example ≠ []
  ∧ size (features eval_example) = length (results eval_example)
  ∧ (∀ uid result, (uid, result) ∈ results eval_example →
                   is_Some (features eval_example !! uid))
  ∧ (w = [] ∨ w = [WarnNoPassage (example_id eval_example)]).
Proof.
  intros Hrun.
  assert (Hlog : w = [] ∨ w = [WarnNoPassage (example_id eval_example)]).
  { apply compute_predictions_some in Hrun
      as (best & idx & _ & _ & Hres & _).
    unfold resolve_passage in Hres.
    destruct (passage_loop _ _ _ _); injection Hres as <- _; auto. }
  unfold compute_predictions in Hrun.
  apply bind_ok in Hrun as (w1 & collected & w2 & Hcollect & Hrest & _).
  destruct collected as [predictions|]; [|done].
  unfold collect_predictions in Hcollect.
  destruct (results eval_example) as [|item rest] eqn:E; [done|].
  rewrite <- E in *.
  case_decide as Hsize; [done|].
  split; [by rewrite E|]. split; [done|].
  split; [|done]. by eapply results_loop_matched.
Qed.

(** X8.  With a beam of width zero or less, or with a maximal answer length of
    zero or less, no example ever gets a prediction. *)
Theorem no_prediction_without_beam_or_length
    (eval_example : EvalExample T) (candidate_beam max_answer_length : Z)
    (w : list warning) (summary : ScoreSummary T) :
  candidate_beam ≤ 0 ∨ max_answer_length ≤ 0 →
  compute_predictions language_name_of eval_example candidate_beam
    max_answer_length ≠ (w, Ok (Some summary)).
Proof.
  intros Hzero Hrun.
  apply compute_predictions_some in Hrun
    as (best & idx & _ & Hscored & _).
  destruct Hscored as (uid & result & feature & _ & _ & Hvalid & Hb & _).
  destruct Hvalid as (_ & _ & _ & _ & Hord & Hlen).
  apply get_best_indexes_bound in Hb as [_ Hbeam]. lia.
Qed.

(** ** Inputs on which the scorer cannot fail *)

(** The shape the data model gives to a feature and its result: the
    language id is present and known, there is a logit for position 0,
    and the offset arrays are at least as long as the logits. *)
Definition well_shaped (eval_example : EvalExample T) : Prop :=
  ∀ uid result feature,
    (uid, result) ∈ results eval_example →
    features eval_example !! uid = Some feature →
    (∃ lid name, language_id feature !! 0%nat = Some lid
                 ∧ language_name_of lid = Some name)
    ∧ start_logits result ≠ [] ∧ end_logits result ≠ []
    ∧ (length (start_logits result) ≤ length (wp_start_offset feature))%nat
    ∧ (length (end_logits result) ≤ length (wp_end_offset feature))%nat.

Lemma end_loop_total result feature lang cls max_answer_length start_index
    end_indexes predictions :
  (start_index < length (wp_start_offset feature))%nat →
  (start_index < length (start_logits result))%nat →
  Forall (λ e, (e < length (wp_end_offset feature))%nat
               ∧ (e < length (end_logits result))%nat) end_indexes →
  ∃ out, end_loop result feature lang cls max_answer_length start_index
           end_indexes predictions = ([], Ok out).
Proof.
  intros [so Hso]%lookup_lt_is_Some [sl Hsl]%lookup_lt_is_Some Hends.
  revert predictions.
  induction Hends as [|end_index rest [Heo Hel] _ IH]; intros predictions.
  - by eexists.
  - apply lookup_lt_is_Some in Heo as [eo Heo], Hel as [el Hel].
    simpl. destruct (end_index <? start_index)%nat; [apply IH|].
    rewrite py_index_bind, Hso.
    destruct (so =? -1); [apply IH|].
    rewrite py_index_bind, Heo.
    destruct (eo =? -1); [apply IH|].
    destruct (_ >? max_answer_length); [apply IH|].
    rewrite py_index_bind, Hsl, py_index_bind, Hel. apply IH.
Qed.

Lemma start_loop_total result feature lang cls max_answer_length
    start_indexes end_indexes predictions :
  Forall (λ s, (s < length (wp_start_offset feature))%nat
               ∧ (s < length (start_logits result))%nat) start_indexes →
  Forall (λ e, (e < length (wp_end_offset feature))%nat
               ∧ (e < length (end_logits result))%nat) end_indexes →
  ∃ out, start_loop result feature lang cls max_answer_length start_indexes
           end_indexes predictions = ([], Ok out).
Proof.
  intros Hstarts Hends. revert predictions.
  induction Hstarts as [|start_index rest [Hso Hsl] _ IH];
    intros predictions.
  - by eexists.
  - simpl.
    destruct (end_loop_total result feature lang cls max_answer_length
                start_index end_indexes predictions Hso Hsl Hends)
      as [mid ->].
    rewrite (bind_ret_l mid). apply IH.
Qed.

Lemma beam_in_bounds (logits : list T) (offsets : list Z) (n_best_size : Z) :
  (length logits ≤ length offsets)%nat →
  Forall (λ i, (i < length offsets)%nat ∧ (i < length logits)%nat)
    (get_best_indexes logits n_best_size).
Proof.
  intros Hlen. apply Forall_forall. intros i Hi.
  apply get_best_indexes_bound in Hi. lia.
Qed.

Lemma results_loop_total eval_example n_best_size max_answer_length items
    predictions :
  well_shaped eval_example →
  items ⊆ results eval_example →
  ∃ w o, results_loop language_name_of eval_example n_best_size
           max_answer_length items predictions = (w, Ok o).
Proof.
  intros Hshape. revert predictions.
  induction items as [|[uid result] rest IH]; intros predictions Hsub.
  - by eexists _, _.
  - simpl.
    destruct (features eval_example !! uid) as [feature|] eqn:Hf;
      [|by eexists _, _].
    destruct (Hshape uid result feature)
      as ((lid & name & Hlid & Hname) & Hs & He & Hls & Hle);
      [apply Hsub, list_elem_of_here|done|].
    rewrite py_index_bind, Hlid. unfold lookup_language.
    rewrite Hname, bind_ret_l, py_index_bind.
    destruct (start_logits result) as [|s0 starts] eqn:Es; [done|].
    rewrite <- Es in *. assert (start_logits result !! 0%nat = Some s0)
      as -> by by rewrite Es.
    rewrite py_index_bind.
    destruct (end_logits result) as [|e0 ends] eqn:Ee; [done|].
    rewrite <- Ee in *. assert (end_logits result !! 0%nat = Some e0)
      as -> by by rewrite Ee.
    destruct (start_loop_total result feature name (score_add s0 e0)
                max_answer_length
                (get_best_indexes (start_logits result) n_best_size)
                (get_best_indexes (end_logits result) n_best_size)
                predictions)
      as [mid ->]; [by apply beam_in_bounds..|].
    rewrite (bind_ret_l mid). apply IH.
    intros x Hx. by apply Hsub, list_elem_of_further.
Qed.

Lemma collect_predictions_total
    (eval_example : EvalExample T) (candidate_beam max_answer_length : Z) :
  well_shaped eval_example →
  ∃ w collected,
    collect_predictions language_name_of eval_example candidate_beam
      max_answer_length = (w, Ok collected).
Proof.
  intros Hshape. unfold collect_predictions.
  destruct (results eval_example) eqn:E; [by eexists _, _|].
  rewrite <- E. case_decide; [by eexists _, _|].
  by apply results_loop_total.
Qed.

(** X9.  On a well-shaped example the scorer raises no exception, whatever the
    beam and the maximal length are: it returns a prediction or [None]. *)
Theorem scorer_total_on_shaped_example
    (eval_example : EvalExample T) (candidate_beam max_answer_length : Z) :
  well_shaped eval_example →
  ∃ w outcome,
    compute_predictions language_name_of eval_example candidate_beam
      max_answer_length = (w, Ok outcome).
Proof.
  intros Hshape. unfold compute_predictions.
  destruct (collect_predictions_total eval_example candidate_beam
              max_answer_length Hshape) as (w & collected & ->).
  destruct collected as [predictions|]; [|by eexists _, _].
  simpl. destruct (py_max predictions) as [best|]; [|by eexists _, _].
  unfold resolve_passage.
  destruct (passage_loop _ _ _ _); by eexists _, _.
Qed.

(** X10.  The failures at the first result of an example whose counts agree: a
    feature without language id or a result without logits raises
    [IndexError], an unknown language id raises [ValueError]. *)
Theorem scorer_raises_on_malformed_record
    (eval_example : EvalExample T) (candidate_beam max_answer_length : Z)
    (uid : Z) (result : RawResult T) (rest : list (Z * RawResult T))
    (feature : Feature) :
  results eval_example = (uid, result) :: rest →
  size (features eval_example) = length (results eval_example) →
  features eval_example !! uid = Some feature →
  (language_id feature = [] →
   compute_predictions language_name_of eval_example candidate_beam
     max_answer_length = ([], Raise IndexError))
  ∧ (∀ lid, language_id feature !! 0%nat = Some lid →
            language_name_of lid = None →
            compute_predictions language_name_of eval_example
              candidate_beam max_answer_length
            = ([], Raise (ValueError "not a valid Language")))
  ∧ (∀ lid name, language_id feature !! 0%nat = Some lid →
                 language_name_of lid = Some name →
                 start_logits result = [] ∨ end_logits result = [] →
                 compute_predictions language_name_of eval_example
                   candidate_beam max_answer_length
                 = ([], Raise IndexError)).
Proof.
  intros Hres Hsize Hf.
  assert (Hstart :
    compute_predictions language_name_of eval_example candidate_beam
      max_answer_length
    = bind (results_loop language_name_of eval_example candidate_beam
              max_answer_length ((uid, result) :: rest) [])
        (λ collected,
           match collected with
           | None => ret None
           | Some predictions =>
               match py_max predictions with
               | None =>
                   warn (WarnNoPredictions (example_id eval_example)) ;;;
                   ret None
               | Some best =>
                   passage_span_index <-
                     resolve_passage eval_example
                       {| start_byte_offset := p_start_offset best;
                          end_byte_offset := p_end_offset best |} ;;
                   ret (Some (with_label (p_summary best)
                                (label_of eval_example best
                                   passage_span_index)))
               end
           end)).
  { unfold compute_predictions, collect_predictions.
    rewrite Hres. rewrite <- Hres. by rewrite decide_False by by intros ?. }
  rewrite Hstart. simpl results_loop. rewrite Hf, py_index_bind.
  split; [|split].
  - by intros ->.
  - intros lid -> Hname. unfold lookup_language. by rewrite Hname.
  - intros lid name -> Hname Hempty. unfold lookup_language.
    rewrite Hname, bind_ret_l, py_index_bind.
    destruct Hempty as [-> | Hempty]; [done|].
    destruct (start_logits result !! 0%nat); [|done].
    by rewrite py_index_bind, Hempty.
Qed.

(** ** Where the scores of a prediction come from *)

Definition scored_from (result : RawResult T) (lang : string) (cls : T)
    (p : Prediction T) : Prop :=
  ∃ sl el,
    start_logits result !! p_start_index p = Some sl
    ∧ end_logits result !! p_end_index p = Some el
    ∧ p_score p = score_sub (score_add sl el) cls
    ∧ p_summary p = new_summary (score_add sl el) cls result
    ∧ p_language p = lang.

Lemma end_loop_scores result feature lang cls max_answer_length start_index
    end_indexes predictions w out :
  end_loop result feature lang cls max_answer_length start_index
    end_indexes predictions = (w, Ok out) →
  ∃ new, out = predictions ++ new
         ∧ Forall (λ p, span_valid feature max_answer_length p
                        ∧ scored_from result lang cls p) new.
Proof.
  revert predictions w out.
  induction end_indexes as [|end_index rest IH]; intros predictions w out.
  - intros [= <- <-]. exists []. by rewrite app_nil_r.
  - simpl. destruct (end_index <? start_index)%nat eqn:Hord; [apply IH|].
    rewrite py_index_bind.
    destruct (wp_start_offset feature !! start_index) as [so|] eqn:Hso; [|done].
    destruct (so =? -1) eqn:Hsent1; [apply IH|].
    rewrite py_index_bind.
    destruct (wp_end_offset feature !! end_index) as [eo|] eqn:Heo; [|done].
    destruct (eo =? -1) eqn:Hsent2; [apply IH|].
    destruct (_ >? max_answer_length) eqn:Hlen; [apply IH|].
    rewrite py_index_bind.
    destruct (start_logits result !! start_index) as [sl|] eqn:Hsl; [|done].
    rewrite py_index_bind.
    destruct (end_logits result !! end_index) as [el|] eqn:Hel; [|done].
    intros Hrun. destruct (IH _ _ _ Hrun) as [new [-> Hnew]].
    eexists (_ :: new). split; [by rewrite <- app_assoc|].
    constructor; [|done].
    apply Nat.ltb_ge in Hord. apply Z.eqb_neq in Hsent1, Hsent2.
    rewrite Z.gtb_ltb in Hlen. apply Z.ltb_ge in Hlen.
    split.
    + unfold span_valid. simpl. replace (eo + 1 - 1) with eo by lia. done.
    + exists sl, el. done.
Qed.

Lemma start_loop_scores result feature lang cls max_answer_length
    start_indexes end_indexes predictions w out :
  start_loop result feature lang cls max_answer_length start_indexes
    end_indexes predictions = (w, Ok out) →
  ∃ new, out = predictions ++ new
         ∧ Forall (λ p, span_valid feature max_answer_length p
                        ∧ scored_from result lang cls p) new.
Proof.
  revert predictions w out.
  induction start_indexes as [|start_index rest IH]; intros predictions w out.
  - intros [= <- <-]. exists []. by rewrite app_nil_r.
  - simpl. intros (w1 & mid & w2 & H1 & H2 & _)%bind_ok.
    apply end_loop_scores in H1 as [new1 [-> Hnew1]].
    apply IH in H2 as [new2 [-> Hnew2]].
    exists (new1 ++ new2). split; [by rewrite app_assoc|].
    by apply Forall_app.
Qed.

(** An entry of [predictions] with the records it was computed from. *)
Definition explained (eval_example : EvalExample T) (max_answer_length : Z)
    (p : Prediction T) : Prop :=
  ∃ uid result feature lid s0 e0,
    (uid, result) ∈ results eval_example
    ∧ features eval_example !! uid = Some feature
    ∧ language_id feature !! 0%nat = Some lid
    ∧ language_name_of lid = Some (p_language p)
    ∧ start_logits result !! 0%nat = Some s0
    ∧ end_logits result !! 0%nat = Some e0
    ∧ span_valid feature max_answer_length p
    ∧ scored_from result (p_language p) (score_add s0 e0) p.

Lemma results_loop_scores eval_example n_best_size max_answer_length items
    predictions w out :
  items ⊆ results eval_example →
  results_loop language_name_of eval_example n_best_size max_answer_length
    items predictions = (w, Ok (Some out)) →
  ∃ new, out = predictions ++ new
         ∧ Forall (explained eval_example max_answer_length) new.
Proof.
  revert predictions w out.
  induction items as [|[uid result] rest IH]; intros predictions w out Hsub.
  - intros [= <- <-]. exists []. by rewrite app_nil_r.
  - simpl.
    destruct (features eval_example !! uid) as [feature|] eqn:Hf; [|done].
    rewrite py_index_bind.
    destruct (language_id feature !! 0%nat) as [lid|] eqn:Hlid; [|done].
    unfold lookup_language.
    destruct (language_name_of lid) as [lang|] eqn:Hlang; [|done].
    rewrite bind_ret_l, py_index_bind.
    destruct (start_logits result !! 0%nat) as [s0|] eqn:Hs0; [|done].
    rewrite py_index_bind.
    destruct (end_logits result !! 0%nat) as [e0|] eqn:He0; [|done].
    intros (w1 & mid & w2 & H1 & H2 & _)%bind_ok.
    apply start_loop_scores in H1 as [new1 [-> Hnew1]].
    apply IH in H2 as [new2 [-> Hnew2]];
      [|intros x Hx; by apply Hsub, list_elem_of_further].
    exists (new1 ++ new2). split; [by rewrite app_assoc|].
    apply Forall_app. split; [|done].
    eapply Forall_impl; [exact Hnew1|].
    intros p [Hvalid Hscored].
    assert (p_language p = lang) as Hp
      by (by destruct Hscored as (? & ? & _ & _ & _ & _ & ?)).
    exists uid, result, feature, lid, s0, e0. rewrite Hp.
    repeat (split; [done|]).
    split; [apply Hsub, list_elem_of_here|]. done.
Qed.

(** X11.  The summary and the label that are returned carry the figures of one
    result and its feature: the CLS score is the sum of the two logits at
    position 0, the span score the sum of the start and end logits of the
    winning pair, the two answer scores of the label their difference; the
    byte offsets are read at the same pair; the language is the one of the
    feature; the example id is the one of the example and the yes/no
    answer is the constant of the module. *)
Theorem returned_label_explained
    (eval_example : EvalExample T) (candidate_beam max_answer_length : Z)
    (w : list warning) (summary : ScoreSummary T) :
  compute_predictions language_name_of eval_example candidate_beam
    max_answer_length = (w, Ok (Some summary)) →
  ∃ label uid result feature lid s0 e0 sl el start_index end_index,
    predicted_label summary = Some label
    ∧ (uid, result) ∈ results eval_example
    ∧ features eval_example !! uid = Some feature
    ∧ language_id feature !! 0%nat = Some lid
    ∧ language_name_of lid = Some (language label)
    ∧ start_logits result !! 0%nat = Some s0
    ∧ end_logits result !! 0%nat = Some e0
    ∧ start_logits result !! start_index = Some sl
    ∧ end_logits result !! end_index = Some el
    ∧ wp_start_offset feature !! start_index
      = Some (start_byte_offset (minimal_answer label))
    ∧ wp_end_offset feature !! end_index
      = Some (end_byte_offset (minimal_answer label) - 1)
    ∧ cls_token_score summary = Some (score_add s0 e0)
    ∧ minimal_span_score summary = Some (score_add sl el)
    ∧ summary_answer_type_logits summary = Some (answer_type_logits result)
    ∧ passage_answer_score label
      = score_sub (score_add sl el) (score_add s0 e0)
    ∧ minimal_answer_score label = passage_answer_score label
    ∧ label_example_id label = example_id eval_example
    ∧ yes_no_answer label = "NONE"%string.
Proof.
  unfold compute_predictions.
  intros (w1 & collected & w2 & Hcollect & Hrest & _)%bind_ok.
  destruct collected as [predictions|]; [|done].
  destruct (py_max predictions) as [best|] eqn:Hmax; [|done].
  apply bind_ok in Hrest as (w3 & idx & w4 & _ & [= _ <-] & _).
  assert (explained eval_example max_answer_length best) as Hbest.
  { unfold collect_predictions in Hcollect.
    destruct (results eval_example) eqn:E; [done|]. rewrite <- E in *.
    case_decide; [done|].
    apply results_loop_scores in Hcollect as [new [-> Hnew]]; [|done].
    apply py_max_elem in Hmax. by eapply Forall_forall in Hnew. }
  destruct Hbest as (uid & result & feature & lid & s0 & e0 & Hin & Hf & Hlid
                     & Hlang & Hs0 & He0 & Hvalid & Hscored).
  destruct Hvalid as (Hso & _ & Heo & _).
  destruct Hscored as (sl & el & Hsl & Hel & Hscore & Hsummary & _).
  exists (label_of eval_example best idx), uid, result, feature, lid, s0, e0,
    sl, el, (p_start_index best), (p_end_index best).
  simpl. rewrite Hsummary, Hscore. simpl. done.
Qed.

(** ** The winner among the predictions *)




(** ** Ties in the beam *)






(** ** The warnings of a missing prediction *)

Lemma results_loop_none eval_example n_best_size max_answer_length items
    predictions w :
  results_loop language_name_of eval_example n_best_size max_answer_length
    items predictions = (w, Ok None) →
  ∃ uid result, (uid, result) ∈ items
                ∧ features eval_example !! uid = None
                ∧ w = [WarnNoFeature uid].
Proof.
  revert predictions w.
  induction items as [|[uid result] rest IH]; intros predictions w; [done|].
  simpl.
  destruct (features eval_example !! uid) as [feature|] eqn:Hf.
  - rewrite py_index_bind.
    destruct (language_id feature !! 0%nat) as [lid|]; [|done].
    unfold lookup_language.
    destruct (language_name_of lid) as [lang|]; [|done].
    rewrite bind_ret_l, py_index_bind.
    destruct (start_logits result !! 0%nat) as [s0|]; [|done].
    rewrite py_index_bind.
    destruct (end_logits result !! 0%nat) as [e0|]; [|done].
    intros (w1 & mid & w2 & H1 & H2 & ->)%bind_ok.
    apply start_loop_ok in H1 as [-> _].
    apply IH in H2 as (uid' & result' & Hin & Hnone & ->).
    exists uid', result'. split; [by apply list_elem_of_further|done].
  - intros [= <-]. exists uid, result.
    split; [apply list_elem_of_here|done].
Qed.

(** X14.  When the scorer returns [None], the log tells why: nothing is logged
    for an example without results; otherwise exactly one warning is
    logged, for the count mismatch, for the first result id without a
    feature, or for the absence of any valid span. *)
Theorem missing_prediction_explained
    (eval_example : EvalExample T) (candidate_beam max_answer_length : Z)
    (w : list warning) :
  compute_predictions language_name_of eval_example candidate_beam
    max_answer_length = (w, Ok None) →
  (results eval_example = [] ∧ w = [])
  ∨ (results eval_example ≠ []
     ∧ size (features eval_example) ≠ length (results eval_example)
     ∧ w = [WarnCountMismatch (size (features eval_example))
              (length (results eval_example)) (example_id eval_example)])
  ∨ (∃ uid result,
        (uid, result) ∈ results eval_example
        ∧ features eval_example !! uid = None
        ∧ w = [WarnNoFeature uid])
  ∨ (collect_predictions language_name_of eval_example candidate_beam
       max_answer_length = ([], Ok (Some []))
     ∧ w = [WarnNoPredictions (example_id eval_example)]).
Proof.
  unfold compute_predictions.
  intros (w1 & collected & w2 & Hcollect & Hrest & ->)%bind_ok.
  destruct collected as [predictions|].
  - pose proof (collect_predictions_ok _ _ _ _ _ _ Hcollect) as [-> _].
    destruct (py_max predictions) as [best|] eqn:Hmax.
    + by apply bind_ok in Hrest as (? & ? & ? & _ & [=] & _).
    + destruct predictions; [|done]. injection Hrest as <-.
      right. right. right. done.
  - injection Hrest as <-. rewrite app_nil_r.
    unfold collect_predictions in Hcollect.
    destruct (results eval_example) eqn:E.
    + injection Hcollect as <-. by left.
    + rewrite <- E in *. case_decide as Hsize.
      * injection Hcollect as <-. right. left.
        split; [by rewrite E|done].
      * right. right. left. by eapply results_loop_none.
Qed.

End ScorerProperties.

(** * Further properties of [compute_pred_dict] *)

Section DriverProperties.

Context {T : Type} `{Score T} `{NumPy}.
Variable language_name_of : Z → option string.

Lemma arrived_elem
    (arrivals : list (M (option (Z * option (PredictedLabel T))))) kvs :
  arrived arrivals = Some kvs →
  ∀ kv, kv ∈ kvs ↔ ∃ w, (w, Ok (Some kv)) ∈ arrivals.
Proof.
  revert kvs. induction arrivals as [|[w [[kv'|]|e]] rest IH]; intros kvs;
    simpl.
  - intros [= <-] kv. split; [by intros ?%elem_of_nil|].
    by intros [w ?%elem_of_nil].
  - destruct (arrived rest) as [kvs'|]; [|done]. intros [= <-] kv.
    rewrite elem_of_cons, (IH kvs' eq_refl). split.
    + intros [->|[w' Hin]].
      * exists w. apply list_elem_of_here.
      * exists w'. by apply list_elem_of_further.
    + intros [w' [[= _ ->]|Hin]%elem_of_cons]; [by left|].
      right. by exists w'.
  - intros Hrest kv. rewrite (IH kvs Hrest). split.
    + intros [w' Hin]. exists w'. by apply list_elem_of_further.
    + intros [w' [[=]|Hin]%elem_of_cons]. by exists w'.
  - done.
Qed.

Lemma reduce_examples_lookup (eval_examples : list (EvalExample T))
    (candidate_beam max_answer_length : Z) w d :
  NoDup (example_id <$> eval_examples) →
  reduce_examples language_name_of eval_examples candidate_beam
    max_answer_length = (w, Ok d) →
  ∀ k v, d !! k = Some v ↔
         ∃ e w', e ∈ eval_examples
                 ∧ construct_prediction_object language_name_of e
                     candidate_beam max_answer_length
                   = (w', Ok (Some (k, v))).
Proof.
  intros Hnd Hrun k v.
  assert (output_mapping (reduce_examples language_name_of eval_examples
                            candidate_beam max_answer_length) = Some d)
    as Hout by (unfold output_mapping; by rewrite Hrun).
  unfold reduce_examples in Hout. rewrite collect_results_arrived in Hout.
  destruct (arrived _) as [kvs|] eqn:Harr; [|done].
  injection Hout as <-.
  assert (NoDup kvs.*1) as Hkeys.
  { eapply sublist_NoDup; [exact Hnd|]. by eapply arrived_keys. }
  rewrite foldl_write_entry, (right_id_L ∅ (∪)) by done.
  rewrite <- elem_of_list_to_map by done.
  rewrite (arrived_elem _ _ Harr). split.
  - intros [w' Hin]. apply list_elem_of_fmap in Hin as (e & Heq & He).
    by exists e, w'.
  - intros (e & w' & He & Heq). exists w'.
    apply list_elem_of_fmap. by exists e.
Qed.

(** X15.  The mapping [compute_pred_dict] returns has an entry for an example
    exactly when the scorer returns a prediction for the aggregate the
    join built for it, and the entry is the label of that prediction;
    examples without a prediction are absent.  This holds for every
    schedule of the pool. *)
Theorem pred_dict_entries
    (schedule : list (EvalExample T) → list (EvalExample T))
    (candidates_dict : list (Z * list Candidate))
    (dev_features : list Feature) (raw_results : list (RawResult T))
    (candidate_beam max_answer_length : Z)
    (w : list warning) (d : gmap Z (option (PredictedLabel T))) :
  NoDup candidates_dict.*1 →
  (∀ l, schedule l ≡ₚ l) →
  compute_pred_dict language_name_of schedule candidates_dict dev_features
    raw_results candidate_beam max_answer_length = (w, Ok d) →
  ∃ wj eval_examples,
    join_records candidates_dict dev_features raw_results
    = (wj, Ok eval_examples)
    ∧ ∀ k v,
        d !! k = Some v ↔
        ∃ e w' summary,
          e ∈ eval_examples ∧ example_id e = k
          ∧ compute_predictions language_name_of e candidate_beam
              max_answer_length = (w', Ok (Some summary))
          ∧ v = predicted_label summary.
Proof.
  intros Hdict Hsched. unfold compute_pred_dict.
  intros (wj & evs & w2 & Hjoin & Hreduce & _)%bind_ok.
  exists wj, evs. split; [done|].
  destruct evs as [|e0 evs0] eqn:Eevs; [done|]. rewrite <- Eevs in *.
  assert (NoDup (example_id <$> schedule evs)) as Hnd.
  { rewrite Hsched.
    assert (example_id <$> evs = (item_of <$> evs).*1) as ->
      by by rewrite <- list_fmap_compose.
    by rewrite (join_records_items _ _ _ _ _ Hjoin). }
  intros k v. rewrite (reduce_examples_lookup _ _ _ _ _ Hnd Hreduce k v).
  split.
  - intros (e & w' & He & Hc). rewrite Hsched in He.
    pose proof (construct_key _ _ _ _ _ _ _ Hc) as ->.
    unfold construct_prediction_object in Hc.
    apply bind_ok in Hc as (w1 & [summary|] & w3 & Hrun & [= _ <-] & _).
    by exists e, w1, summary.
  - intros (e & w' & summary & He & <- & Hrun & ->).
    exists e, w'. rewrite Hsched. split; [done|].
    unfold construct_prediction_object. rewrite Hrun. simpl.
    by rewrite app_nil_r.
Qed.

(** X16.  Every entry of the returned mapping is a label for its own key: the
    key is an example id of [candidates_dict], the label names that id,
    its two scores are equal, its yes/no answer is ["NONE"], and its
    passage index is a position of the candidate list of the example (or 0
    when the list is empty). *)
Theorem pred_dict_labels
    (schedule : list (EvalExample T) → list (EvalExample T))
    (candidates_dict : list (Z * list Candidate))
    (dev_features : list Feature) (raw_results : list (RawResult T))
    (candidate_beam max_answer_length : Z)
    (w : list warning) (d : gmap Z (option (PredictedLabel T)))
    (k : Z) (v : option (PredictedLabel T)) :
  (∀ l, schedule l ⊆ l) →
  compute_pred_dict language_name_of schedule candidates_dict dev_features
    raw_results candidate_beam max_answer_length = (w, Ok d) →
  d !! k = Some v →
  ∃ label cands,
    v = Some label
    ∧ (k, cands) ∈ candidates_dict
    ∧ label_example_id label = k
    ∧ passage_answer_score label = minimal_answer_score label
    ∧ yes_no_answer label = "NONE"%string
    ∧ ((passage_answer_index label < length cands)%nat
       ∨ passage_answer_index label = 0%nat).
Proof.
  intros Hsched. unfold compute_pred_dict.
  intros (wj & evs & w2 & Hjoin & Hreduce & _)%bind_ok Hlookup.
  destruct evs as [|e0 evs0] eqn:Eevs; [done|]. rewrite <- Eevs in *.
  assert (∃ e w', e ∈ schedule evs
                  ∧ construct_prediction_object language_name_of e
                      candidate_beam max_answer_length
                    = (w', Ok (Some (k, v)))) as (e & w' & He & Hc).
  { unfold reduce_examples in Hreduce.
    assert (∀ arrivals d0 w0 d1,
      collect_results arrivals d0 = (w0, Ok d1) →
      d1 !! k = Some v →
      d0 !! k = Some v ∨ ∃ w', (w', Ok (Some (k, v))) ∈ arrivals)
      as Hgen.
    { clear. induction arrivals as [|[wt [[[k' v']|]|err]] rest IH];
        intros d0 w0 d1; simpl.
      - intros [= _ <-]. by left.
      - destruct (collect_results rest _) as [wr [dr|]] eqn:E; [|done].
        intros [= _ <-] Hk. destruct (IH _ _ _ E Hk) as [Hins|[w' Hin]].
        + apply lookup_insert_Some in Hins as [[-> ->]|[_ Hd0]].
          * right. exists wt. apply list_elem_of_here.
          * by left.
        + right. exists w'. by apply list_elem_of_further.
      - destruct (collect_results rest _) as [wr [dr|]] eqn:E; [|done].
        intros [= _ <-] Hk. destruct (IH _ _ _ E Hk) as [?|[w' Hin]];
          [by left|].
        right. exists w'. by apply list_elem_of_further.
      - done. }
    destruct (Hgen _ _ _ _ Hreduce Hlookup) as [Hempty|[w' Hin]];
      [by rewrite lookup_empty in Hempty|].
    apply list_elem_of_fmap in Hin as (e & Heq & He). by exists e, w'. }
  apply Hsched in He.
  pose proof (construct_key _ _ _ _ _ _ _ Hc) as ->.
  unfold construct_prediction_object in Hc.
  apply bind_ok in Hc as (w1 & [summary|] & w3 & Hrun & [= _ <-] & _).
  apply compute_predictions_some in Hrun
    as (best & idx & _ & _ & Hres & ->).
  exists (label_of e best idx), (candidates e). simpl.
  split; [done|]. split.
  { assert (item_of e ∈ item_of <$> evs) as Hitem
      by by apply list_elem_of_fmap_2.
    by rewrite (join_records_items _ _ _ _ _ Hjoin) in Hitem. }
  repeat (split; [done|]).
  unfold resolve_passage in Hres.
  destruct (passage_loop _ _ _ _) as [i|] eqn:Hloop.
  - injection Hres as _ <-. left.
    pose proof (passage_loop_some (candidates e)
                  {| start_byte_offset := p_start_offset best;
                     end_byte_offset := p_end_offset best |} 0 i Hloop)
      as (j & c & -> & Hj & _).
    by apply lookup_lt_Some in Hj.
  - injection Hres as _ <-. by right.
Qed.

End DriverProperties.

(** * Further properties of the merge-join *)

Section JoinProperties.

Context {T : Type} `{NumPy}.





(** *** Ties of the sort *)









(** *** What a finished join has stored *)








End JoinProperties.

(** * The whole run on well-shaped records *)

Section WholeRun.

Context {T : Type} `{Score T} `{NumPy}.
Variable language_name_of : Z → option string.



End WholeRun.

(** * Reading the candidates ([read_candidates_from_one_split]) *)

Section ReadCandidates.

(** [json.loads(line)] and the two subscriptions of its value
    ([json_dict["example_id"]], [json_dict["passage_answer_candidates"]]);
    the parser is a library function and a parameter here.  [Raise] is
    the exception of a line that does not parse or lacks a key. *)
Variable json_loads : string → result (Z * list Candidate).

Fixpoint read_loop (lines : list string)
    (candidates_dict : list (Z * list Candidate))
  : M (list (Z * list Candidate)) :=
  match lines with
  | [] => ret candidates_dict
  | line :: rest =>
      match json_loads line with
      | Ok json_dict =>
          read_loop rest (dict_set candidates_dict json_dict.1 json_dict.2)
      | Raise e => raise e
      end
  end.

Definition read_candidates_from_one_split (file_obj : list string)
  : M (list (Z * list Candidate)) :=
  read_loop file_obj [].

(** [items] binds [k] to [v], and no later item has the key [k]. *)
Definition last_binding {V} (items : list (Z * V)) (k : Z) (v : V) : Prop :=
  ∃ before after, items = before ++ (k, v) :: after ∧ k ∉ after.*1.

Lemma last_binding_cons {V} (x : Z * V) (items : list (Z * V)) k v :
  last_binding (x :: items) k v
  ↔ last_binding items k v ∨ (x = (k, v) ∧ k ∉ items.*1).
Proof.
  split.
  - intros ([|y before] & after & Heq & Hlast).
    + injection Heq as -> ->. by right.
    + injection Heq as -> ->. left. by exists before, after.
  - intros [(before & after & -> & Hlast)|[-> Hlast]].
    + by exists (x :: before), after.
    + by exists [], items.
Qed.

Lemma dict_set_fst {V} (d : list (Z * V)) (k : Z) (v : V) :
  (dict_set d k v).*1 = d.*1 ++ (if decide (k ∈ d.*1) then [] else [k]).
Proof.
  induction d as [|[k0 v0] d IH]; [done|]. simpl.
  destruct (decide (k0 = k)) as [->|Hne]; csimpl.
  - rewrite decide_True by apply list_elem_of_here. by rewrite app_nil_r.
  - rewrite IH. f_equal. f_equal.
    destruct (decide (k ∈ d.*1)) as [Hin|Hnin].
    + by rewrite decide_True by by apply list_elem_of_further.
    + rewrite decide_False; [done|].
      intros [?|?]%elem_of_cons; congruence.
Qed.

Lemma dict_set_NoDup {V} (d : list (Z * V)) (k : Z) (v : V) :
  NoDup d.*1 → NoDup (dict_set d k v).*1.
Proof.
  intros Hnd. rewrite dict_set_fst. case_decide as Hin.
  - by rewrite app_nil_r.
  - apply NoDup_app. split; [done|]. split; [|apply NoDup_singleton].
    intros x Hx ->%list_elem_of_singleton. done.
Qed.

Lemma dict_set_elem_iff {V} (d : list (Z * V)) (k : Z) (v : V) k' v' :
  NoDup d.*1 →
  (k', v') ∈ dict_set d k v ↔ (k' = k ∧ v' = v) ∨ (k' ≠ k ∧ (k', v') ∈ d).
Proof.
  intros Hnd. split.
  - intros Hin. destruct (decide (k' = k)) as [->|Hne].
    + left. split; [done|].
      pose proof (dict_set_NoDup d k v Hnd) as Hnd'.
      pose proof (dict_set_new d k v) as Hnew.
      assert ((k, v') = (k, v)) as [= ->]; [|done].
      eapply NoDup_fmap_elem; [exact Hnd'|done..].
    + right. split; [done|].
      by destruct (dict_set_elem _ _ _ _ _ Hin) as [[? _]|?].
  - intros [[-> ->]|[Hne Hin]].
    + apply dict_set_new.
    + by apply dict_set_other.
Qed.

Lemma read_loop_dict (lines : list string) (items d : list (Z * list Candidate)) :
  Forall2 (λ line item, json_loads line = Ok item) lines items →
  NoDup d.*1 →
  ∃ d', read_loop lines d = ([], Ok d')
        ∧ NoDup d'.*1
        ∧ ∀ k cands,
            (k, cands) ∈ d' ↔
            last_binding items k cands ∨ ((k ∉ items.*1) ∧ (k, cands) ∈ d).
Proof.
  intros Hparse. revert d.
  induction Hparse as [|line [k0 c0] lines items Hline _ IH]; intros d Hnd.
  - exists d. split; [done|]. split; [done|]. intros k cands. split.
    + intros Hin. right. split; [apply not_elem_of_nil|done].
    + intros [([|??] & ? & [=] & _)|[_ Hin]]; done.
  - simpl. rewrite Hline. simpl.
    destruct (IH (dict_set d k0 c0) (dict_set_NoDup _ _ _ Hnd))
      as (d' & -> & Hnd' & Hiff).
    exists d'. split; [done|]. split; [done|].
    intros k cands. rewrite Hiff, last_binding_cons, dict_set_elem_iff by done.
    csimpl. rewrite not_elem_of_cons. split.
    + intros [Hlast|[Hnin [[-> ->]|[Hne Hin]]]]; [left; by left| |].
      * left. by right.
      * by right.
    + intros [[Hlast|[[= -> ->] Hnin]]|[[Hne Hnin] Hin]].
      * by left.
      * right. split; [done|]. by left.
      * right. split; [done|]. by right.
Qed.

(** X20.  The dictionary that is read holds each example id once, bound to the
    candidates of the last line that carries this id; the first line that
    does not parse ends the reading with its exception. *)
Theorem read_candidates_dict :
  (∀ (lines : list string) (items : list (Z * list Candidate)),
      Forall2 (λ line item, json_loads line = Ok item) lines items →
      ∃ candidates_dict,
        read_candidates_from_one_split lines = ([], Ok candidates_dict)
        ∧ NoDup candidates_dict.*1
        ∧ ∀ k cands,
            (k, cands) ∈ candidates_dict ↔ last_binding items k cands)
  ∧ (∀ (good : list string) (items : list (Z * list Candidate))
       (bad : string) (rest : list string) (e : exn),
        Forall2 (λ line item, json_loads line = Ok item) good items →
        json_loads bad = Raise e →
        read_candidates_from_one_split (good ++ bad :: rest)
        = ([], Raise e)).
Proof.
  split.
  - intros lines items Hparse.
    destruct (read_loop_dict lines items [] Hparse) as (d & Hrun & Hnd & Hiff);
      [constructor|].
    exists d. split; [done|]. split; [done|].
    intros k cands. rewrite Hiff. split; [|by left].
    intros [?|[_ Hin]]; [done|]. by apply elem_of_nil in Hin.
  - intros good items bad rest e Hparse Hbad.
    unfold read_candidates_from_one_split. generalize (@nil (Z * list Candidate)).
    induction Hparse as [|line item good items Hline _ IH]; intros d; simpl.
    + by rewrite Hbad.
    + rewrite Hline. apply IH.
Qed.

End ReadCandidates.

(** * Scenarios for the further properties *)

Lemma prediction_needs_matched_example_witness :
  compute_predictions sample_languages scenario_example 2 10
  = ([], Ok (Some scenario_summary))
  ∧ results scenario_example ≠ []
  ∧ size (features scenario_example) = length (results scenario_example)
  ∧ (∀ uid result, (uid, result) ∈ results scenario_example →
                   is_Some (features scenario_example !! uid))
  ∧ (@nil warning = []
     ∨ @nil warning = [WarnNoPassage (example_id scenario_example)]).
Proof.
  split; [exact scenario_run|].
  exact (prediction_needs_matched_example sample_languages scenario_example
           2 10 [] scenario_summary scenario_run).
Defined.

Lemma no_prediction_without_beam_or_length_witness :
  (0 ≤ 0 ∨ 10 ≤ 0)
  ∧ compute_predictions sample_languages scenario_example 0 10
    ≠ ([], Ok (Some scenario_summary)).
Proof.
  assert (0 ≤ 0 ∨ 10 ≤ 0) as Hzero by (left; lia).
  split; [exact Hzero|].
  exact (no_prediction_without_beam_or_length sample_languages
           scenario_example 0 10 [] scenario_summary Hzero).
Defined.

Lemma scenario_well_shaped : well_shaped sample_languages scenario_example.
Proof.
  intros uid result feature Hin Hf.
  apply list_elem_of_singleton in Hin as [= -> ->].
  vm_compute in Hf. injection Hf as <-.
  split; [by exists 0, "english"%string|].
  split; [done|]. split; [done|]. simpl. lia.
Qed.

Lemma scorer_total_on_shaped_example_witness :
  well_shaped sample_languages scenario_example
  ∧ ∃ w outcome,
      compute_predictions sample_languages scenario_example 2 10
      = (w, Ok outcome).
Proof.
  split; [exact scenario_well_shaped|].
  exact (scorer_total_on_shaped_example sample_languages scenario_example
           2 10 scenario_well_shaped).
Defined.

Definition no_language_feature : Feature :=
  {| unique_ids := 0; example_index := 0;
     wp_start_offset := [-1; 0]; wp_end_offset := [-1; 3];
     language_id := [] |}.

Definition no_language_example : EvalExample Z :=
  {| example_id := 0;
     candidates := [candidate 0 10];
     results := [(1, plain_result 0)];
     features := {[ 1 := no_language_feature ]} |}.

Lemma scorer_raises_on_malformed_record_witness :
  language_id no_language_feature = []
  ∧ compute_predictions sample_languages no_language_example 2 10
    = ([], Raise IndexError).
Proof.
  split; [reflexivity|].
  refine (proj1 (scorer_raises_on_malformed_record sample_languages
                   no_language_example 2 10 1 (plain_result 0) []
                   no_language_feature _ _ _) _);
    vm_compute; reflexivity.
Defined.

Lemma returned_label_explained_witness :
  compute_predictions sample_languages scenario_example 2 10
  = ([], Ok (Some scenario_summary))
  ∧ ∃ label uid result feature lid s0 e0 sl el start_index end_index,
      predicted_label scenario_summary = Some label
      ∧ (uid, result) ∈ results scenario_example
      ∧ features scenario_example !! uid = Some feature
      ∧ language_id feature !! 0%nat = Some lid
      ∧ sample_languages lid = Some (language label)
      ∧ start_logits result !! 0%nat = Some s0
      ∧ end_logits result !! 0%nat = Some e0
      ∧ start_logits result !! start_index = Some sl
      ∧ end_logits result !! end_index = Some el
      ∧ wp_start_offset feature !! start_index
        = Some (start_byte_offset (minimal_answer label))
      ∧ wp_end_offset feature !! end_index
        = Some (end_byte_offset (minimal_answer label) - 1)
      ∧ cls_token_score scenario_summary = Some (score_add s0 e0)
      ∧ minimal_span_score scenario_summary = Some (score_add sl el)
      ∧ summary_answer_type_logits scenario_summary
        = Some (answer_type_logits result)
      ∧ passage_answer_score label
        = score_sub (score_add sl el) (score_add s0 e0)
      ∧ minimal_answer_score label = passage_answer_score label
      ∧ label_example_id label = example_id scenario_example
      ∧ yes_no_answer label = "NONE"%string.
Proof.
  split; [exact scenario_run|].
  exact (returned_label_explained sample_languages scenario_example 2 10 []
           scenario_summary scenario_run).
Defined.



Lemma missing_prediction_explained_witness :
  compute_predictions sample_languages mismatch_example 2 10
  = ([WarnCountMismatch 0 1 4], Ok None)
  ∧ ((results mismatch_example = [] ∧ [WarnCountMismatch 0 1 4] = [])
     ∨ (results mismatch_example ≠ []
        ∧ size (features mismatch_example)
          ≠ length (results mismatch_example)
        ∧ [WarnCountMismatch 0 1 4]
          = [WarnCountMismatch (size (features mismatch_example))
               (length (results mismatch_example))
               (example_id mismatch_example)])
     ∨ (∃ uid result,
           (uid, result) ∈ results mismatch_example
           ∧ features mismatch_example !! uid = None
           ∧ [WarnCountMismatch 0 1 4] = [WarnNoFeature uid])
     ∨ (collect_predictions sample_languages mismatch_example 2 10
        = ([], Ok (Some []))
        ∧ [WarnCountMismatch 0 1 4]
          = [WarnNoPredictions (example_id mismatch_example)])).
Proof.
  assert (compute_predictions sample_languages mismatch_example 2 10
          = ([WarnCountMismatch 0 1 4], Ok None)) as Hrun
    by (vm_compute; reflexivity).
  split; [exact Hrun|].
  exact (missing_prediction_explained sample_languages mismatch_example 2 10
           [WarnCountMismatch 0 1 4] Hrun).
Defined.

(** ** The driver on two examples *)

Definition two_label (k : Z) : PredictedLabel Z :=
  {| label_example_id := k;
     language := "english";
     passage_answer_index := 0;
     passage_answer_score := 2;
     minimal_answer := {| start_byte_offset := 0; end_byte_offset := 4 |};
     minimal_answer_score := 2;
     yes_no_answer := "NONE" |}.

Definition two_examples_dict : gmap Z (option (PredictedLabel Z)) :=
  <[5 := Some (two_label 5)]> (<[9 := Some (two_label 9)]> ∅).

Lemma two_examples_run :
  compute_pred_dict sample_languages reverse two_examples two_features
    two_results 1 10
  = ([], Ok two_examples_dict).
Proof. vm_compute. reflexivity. Qed.

Lemma pred_dict_entries_witness :
  NoDup two_examples.*1
  ∧ (∀ l : list (EvalExample Z), reverse l ≡ₚ l)
  ∧ ∃ wj eval_examples,
      join_records two_examples two_features two_results
      = (wj, Ok eval_examples)
      ∧ ∀ k v,
          two_examples_dict !! k = Some v ↔
          ∃ e w' summary,
            e ∈ eval_examples ∧ example_id e = k
            ∧ compute_predictions sample_languages e 1 10
              = (w', Ok (Some summary))
            ∧ v = predicted_label summary.
Proof.
  split; [exact two_examples_keys|].
  split; [exact reverse_Permutation|].
  exact (pred_dict_entries sample_languages reverse two_examples
           two_features two_results 1 10 [] two_examples_dict
           two_examples_keys reverse_Permutation two_examples_run).
Defined.

Lemma reverse_subseteq {A} (l : list A) : reverse l ⊆ l.
Proof. intros x. by rewrite elem_of_reverse. Qed.

Lemma pred_dict_labels_witness :
  (∀ l : list (EvalExample Z), reverse l ⊆ l)
  ∧ two_examples_dict !! 5 = Some (Some (two_label 5))
  ∧ ∃ label cands,
      Some (two_label 5) = Some label
      ∧ (5, cands) ∈ two_examples
      ∧ label_example_id label = 5
      ∧ passage_answer_score label = minimal_answer_score label
      ∧ yes_no_answer label = "NONE"%string
      ∧ ((passage_answer_index label < length cands)%nat
         ∨ passage_answer_index label = 0%nat).
Proof.
  assert (two_examples_dict !! 5 = Some (Some (two_label 5))) as Hlookup
    by (vm_compute; reflexivity).
  split; [exact reverse_subseteq|]. split; [exact Hlookup|].
  exact (pred_dict_labels sample_languages reverse two_examples two_features
           two_results 1 10 [] two_examples_dict 5 (Some (two_label 5))
           reverse_subseteq two_examples_run Hlookup).
Defined.

(** ** The join on two examples *)




(** ** The whole run on two examples *)





(** ** Reading three lines *)

Definition sample_loads (line : string) : result (Z * list Candidate) :=
  if decide (line = "a"%string) then Ok (5, [candidate 0 10])
  else if decide (line = "b"%string) then Ok (9, [])
  else if decide (line = "c"%string) then Ok (5, [candidate 0 20])
  else Raise (ValueError "JSONDecodeError").

Lemma read_candidates_dict_witness :
  Forall2 (λ line item, sample_loads line = Ok item)
    ["a"; "b"; "c"]%string
    [(5, [candidate 0 10]); (9, []); (5, [candidate 0 20])]
  ∧ ∃ candidates_dict,
      read_candidates_from_one_split sample_loads ["a"; "b"; "c"]%string
      = ([], Ok candidates_dict)
      ∧ NoDup candidates_dict.*1
      ∧ ∀ k cands,
          (k, cands) ∈ candidates_dict ↔
          last_binding
            [(5, [candidate 0 10]); (9, []); (5, [candidate 0 20])] k cands.
Proof.
  assert (Forall2 (λ line item, sample_loads line = Ok item)
            ["a"; "b"; "c"]%string
            [(5, [candidate 0 10]); (9, []); (5, [candidate 0 20])])
    as Hparse by (repeat constructor).
  split; [exact Hparse|].
  exact (proj1 (read_candidates_dict sample_loads) _ _ Hparse).
Defined.
